(** * The Surface Manager of packages/phasor (src/surface.ts)

    A shallow embedding of [SurfaceManager]: the element cache, the binding
    graph, the order bounds, the observation handler of the replicated
    container and the mutation and query API, followed by the properties of
    the specification that concern them. The model ends with the checkbox
    cell of the database block (part_000).

    Conventions.
    - A JavaScript string is a [string]; [<], [>] and [===] on strings are
      the lexicographic order of [String.compare] and [String.eqb].
    - A JavaScript number is a binary64 [float].
    - [Map<string, V>] is [gmap string V]; a [Set<string>], whose iteration
      order is its insertion order, is a duplicate-free [list string].
    - An exception is a [Throw] completion; the state reached before the
      throw is kept, as it is in JavaScript.
    - Code that is imported by surface.ts but lives in other files (yjs, the
      renderer, the element classes, the order-key generator) is either an
      operation of a type class, or a definition marked
      [Modelled from the spec]. *)

From Stdlib Require Import ZArith String Ascii PrimFloat Uint63 OrderedTypeEx.
From stdpp Require Import gmap strings list fin_maps sorting.

Open Scope string_scope.

(** * The model *)

(** ** Order keys: strings under the lexicographic order *)

Module Key.

(** [a < b] and [a <= b] on JavaScript strings. *)
Definition lt (a b : string) : Prop := String.ltb a b = true.
Definition le (a b : string) : Prop := String.leb a b = true.

End Key.

Infix "≺" := Key.lt (at level 70, no associativity).
Infix "≼" := Key.le (at level 70, no associativity).

(** ** Values and records of the replicated store *)

(** The values a record field holds, [unknown] in the source: [undefined], a
    string, a number, or the reference [{ id, ... }] a connector keeps to the
    element it is attached to. *)
Inductive Value : Type :=
| VUndefined
| VString (s : string)
| VNumber (n : float)
| VAttached (id : string).

(** A plain object or a nested [Y.Map<unknown>]: field name to value. *)
Abbreviation YMap := (gmap string Value).

(** [yMap.get(key) as string]: a field read at its declared type. A field
    that is absent or holds no string has no reading at that type; it is
    read as the empty string. *)
Definition as_string (v : option Value) : string :=
  match v with
  | Some (VString s) => s
  | _ => ""
  end.

(** [yElement.get(key)]: [undefined] for a missing field. *)
Definition ymap_get (key : string) (m : YMap) : Value :=
  default VUndefined (m !! key).

(** Modelled from the spec: the replicated container [Y.Map<Y.Map<unknown>>]
    (yjs is not under src/), "a map keyed by element id, each value itself a
    map of fields", with [get], [set], [delete], [has] by id and [forEach]
    in the order of the entries. *)
Definition YContainer : Type := list (string * YMap).

Fixpoint yc_get (id : string) (c : YContainer) : option YMap :=
  match c with
  | [] => None
  | (k, m) :: c' => if String.eqb k id then Some m else yc_get id c'
  end.

Definition yc_has (id : string) (c : YContainer) : bool :=
  match yc_get id c with Some _ => true | None => false end.

Fixpoint yc_set (id : string) (m : YMap) (c : YContainer) : YContainer :=
  match c with
  | [] => [(id, m)]
  | (k, m') :: c' =>
      if String.eqb k id then (k, m) :: c' else (k, m') :: yc_set id m c'
  end.

Fixpoint yc_delete (id : string) (c : YContainer) : YContainer :=
  match c with
  | [] => []
  | (k, m) :: c' =>
      if String.eqb k id then yc_delete id c' else (k, m) :: yc_delete id c'
  end.

(** Modelled from the spec: the batched change notification of the container
    (yjs' [YMapEvent], not under src/): the ids changed by one transaction,
    and for each the action that happened to it. An id of [keysChanged] may
    have no entry in [changes.keys]. *)
Inductive Action : Type := ActionAdd | ActionUpdate | ActionDelete.

Record YMapEvent : Type := mkEvent {
  keysChanged : list string;
  changes_keys : gmap string Action
}.

(** The notification of [container.set(id, _)]: an add for a new id, an
    update for an id that was present. *)
Definition event_of_set (id : string) (c : YContainer) : YMapEvent :=
  {| keysChanged := [id];
     changes_keys :=
       {[ id := if yc_has id c then ActionUpdate else ActionAdd ]} |}.

(** The notification of [container.delete(id)]: none when there was nothing
    to delete. *)
Definition event_of_delete (id : string) (c : YContainer) : option YMapEvent :=
  if yc_has id c
  then Some {| keysChanged := [id]; changes_keys := {[ id := ActionDelete ]} |}
  else None.

(** ** Element wrappers *)

(** Modelled from the spec: the element classes of ./elements/index.js (not
    under src/), "a registry of tagged variants". The manager tells
    connectors ([instanceof ConnectorElement]) from every other class. *)
Inductive ElementClass : Type := ConnectorElement | PlainElement.

(** Modelled from the spec: [SurfaceElement] (./elements/surface-element.js,
    not under src/), "derived, mountable object wrapping a record" with
    "store-backed fields": the wrapper holds the [Y.Map] of its record, and
    its getters read the record's fields at their declared types. In the
    model a wrapper carries the record as it was when the wrapper was
    constructed, and its class. [el_id], [el_index], [startElement] and
    [endElement] are the reads made while the wrapper is constructed and
    mounted: the scan and the add branch of the handler read [element.id]
    and [element.index] then, and [_updateBindings] reads the endpoints
    then. A read made later goes to the record itself ([live_index]
    below). A property below that speaks of the key of a cached wrapper
    speaks of the key it was mounted with. *)
Record SurfaceElement : Type := mkElement {
  yMap : YMap;
  elementClass : ElementClass
}.

Definition el_id (e : SurfaceElement) : string := as_string (yMap e !! "id").
Definition el_index (e : SurfaceElement) : string :=
  as_string (yMap e !! "index").

(** Modelled from the spec: [element.index] when it is read after the
    wrapper was mounted. The wrapper and the container share the record:
    the read gives the [index] the record has in the container at that
    moment, the one a later [updateIndexes] wrote included, and
    [undefined] once the record is deleted from the container. The record
    of a wrapper is the one the container holds under the wrapper's id; a
    record that replaced it under the same id is not told apart from it
    (the identity of [Y.Map] objects is not modelled). *)
Definition live_index (e : SurfaceElement) (c : YContainer) : Value :=
  match yc_get (el_id e) c with
  | Some yElement => ymap_get "index" yElement
  | None => VUndefined
  end.

(** [element.startElement] and [element.endElement] of a connector: the
    attached element's id when the reference is set (truthy). *)
Definition attached_id (v : option Value) : option string :=
  match v with
  | Some (VAttached id) => Some id
  | _ => None
  end.
Definition startElement (e : SurfaceElement) : option string :=
  attached_id (yMap e !! "startElement").
Definition endElement (e : SurfaceElement) : option string :=
  attached_id (yMap e !! "endElement").

Record IBound : Type := mkBound { b_x : float; b_y : float; b_w : float; b_h : float }.

(** ** The collaborators the manager is written against *)

(** ./renderer.js: [new Renderer()], [element.mount(renderer)],
    [element.unmount()] and [renderer.gridManager.search(bound)]. *)
Class RendererOps (R : Type) : Type := {
  Renderer_new : R;
  mount : SurfaceElement -> R -> R;
  unmount : SurfaceElement -> R -> R;
  gridManager_search : R -> IBound -> list SurfaceElement
}.

(** ./elements/index.js: the constructor registry [ElementCtors], the
    per-type defaults [ElementDefaultProps], and the per-class precise hit
    test [element.hitTest(x, y, options)]. *)
Class ElementTypes (HitTestOptions : Type) : Type := {
  ElementCtors : string -> option ElementClass;
  ElementDefaultProps : string -> YMap;
  hitTest : SurfaceElement -> float -> float -> option HitTestOptions -> bool
}.

(** ./utils/std.js: [generateKeyBetween(a, null)], the only form surface.ts
    calls: a key after [a] with no upper bound. *)
Inductive Null : Type := null.

Class KeyGenerator : Type := {
  generateKeyBetween : string -> Null -> string
}.

(** The contract of the generator, from the specification: "key after max
    with no upper bound". *)
Definition key_after_contract `{KeyGenerator} : Prop :=
  forall a : string, a ≺ generateKeyBetween a null.

(** ** State *)

Record Indexes : Type := mkIndexes { min : string; max : string }.

Record SurfaceManager (R : Type) : Type := mkManager {
  _renderer : R;
  _yContainer : YContainer;
  _elements : gmap string SurfaceElement;
  _bindings : gmap string (list string);
  indexes : Indexes
}.
Arguments mkManager {R}.
Arguments _renderer {R}.
Arguments _yContainer {R}.
Arguments _elements {R}.
Arguments _bindings {R}.
Arguments indexes {R}.

(** What [console.error] printed. *)
Inductive ConsoleEntry : Type :=
| ConsoleError (message : string) (event : YMapEvent).

(** What the document saw: the brackets of [doc.transact], the field writes
    [yElement.set(key, value)] on the record of an id, and the calls of a
    caller's callback. *)
Inductive DocEvent : Type :=
| TransactBegin
| TransactEnd
| FieldSet (id key : string) (v : Value)
| CallbackCall (keys : list string).

(** The manager together with the console and the document's log. *)
Record World (R : Type) : Type := mkWorld {
  manager : SurfaceManager R;
  console : list ConsoleEntry;
  doc_log : list DocEvent
}.
Arguments mkWorld {R}.
Arguments manager {R}.
Arguments console {R}.
Arguments doc_log {R}.

Inductive Error : Type := AssertionError | TypeError.

Inductive Completion (A : Type) : Type :=
| Normal (a : A)
| Throw (e : Error).
Arguments Normal {A}.
Arguments Throw {A}.

(** ** A state-and-exception monad for the methods *)

Section Monad.
Context {R : Type}.

Definition M (A : Type) : Type := World R -> World R * Completion A.

#[export] Instance M_ret : MRet M := fun A a w => (w, Normal a).

#[export] Instance M_bind : MBind M := fun A B f m w =>
  match m w with
  | (w', Normal a) => f a w'
  | (w', Throw e) => (w', Throw e)
  end.

(** [throw e] *)
Definition throw {A : Type} (e : Error) : M A := fun w => (w, Throw e).

(** Reading and writing [this]. *)
Definition this : M (SurfaceManager R) := fun w => (w, Normal (manager w)).

Definition modify (f : SurfaceManager R -> SurfaceManager R) : M unit :=
  fun w => (mkWorld (f (manager w)) (console w) (doc_log w), Normal tt).

(** [console.error(message, event)] *)
Definition console_error (message : string) (event : YMapEvent) : M unit :=
  fun w =>
    (mkWorld (manager w) (console w ++ [ConsoleError message event]) (doc_log w),
     Normal tt).

(** An entry of the document's log. *)
Definition emit (d : DocEvent) : M unit :=
  fun w => (mkWorld (manager w) (console w) (doc_log w ++ [d]), Normal tt).

(** [assertExists(v)] of @blocksuite/global/utils: throws when [v] is
    [null] or [undefined]. *)
Definition assertExists {A : Type} (v : option A) : M A :=
  match v with
  | Some a => mret a
  | None => throw AssertionError
  end.

(** Calling a method of a value that may be [undefined]: a [TypeError]. *)
Definition deref {A : Type} (v : option A) : M A :=
  match v with
  | Some a => mret a
  | None => throw TypeError
  end.

(** [list.forEach(f)]: an exception thrown by [f] ends the iteration. *)
Fixpoint forEach {A : Type} (f : A -> M unit) (l : list A) : M unit :=
  match l with
  | [] => mret tt
  | a :: l' => f a ;; forEach f l'
  end.

(** [try { body } finally { after }] *)
Definition try_finally {A : Type} (body : M A) (after : M unit) : M A :=
  fun w =>
    match body w with
    | (w', r) =>
        match after w' with
        | (w'', Normal _) => (w'', r)
        | (w'', Throw e) => (w'', Throw e)
        end
    end.

(** Code of the host application, which sees the manager. *)
Definition host {A : Type}
  (f : SurfaceManager R -> SurfaceManager R * Completion A) : M A :=
  fun w =>
    match f (manager w) with
    | (sm, r) => (mkWorld sm (console w) (doc_log w), r)
    end.

(** Field updates of the manager. *)
Definition set_renderer (f : R -> R) (sm : SurfaceManager R) : SurfaceManager R :=
  mkManager (f (_renderer sm)) (_yContainer sm) (_elements sm) (_bindings sm)
    (indexes sm).
Definition set_yContainer (f : YContainer -> YContainer) (sm : SurfaceManager R)
  : SurfaceManager R :=
  mkManager (_renderer sm) (f (_yContainer sm)) (_elements sm) (_bindings sm)
    (indexes sm).
Definition set_elements
  (f : gmap string SurfaceElement -> gmap string SurfaceElement)
  (sm : SurfaceManager R) : SurfaceManager R :=
  mkManager (_renderer sm) (_yContainer sm) (f (_elements sm)) (_bindings sm)
    (indexes sm).
Definition set_bindings
  (f : gmap string (list string) -> gmap string (list string))
  (sm : SurfaceManager R) : SurfaceManager R :=
  mkManager (_renderer sm) (_yContainer sm) (_elements sm) (f (_bindings sm))
    (indexes sm).
Definition set_indexes (f : Indexes -> Indexes) (sm : SurfaceManager R)
  : SurfaceManager R :=
  mkManager (_renderer sm) (_yContainer sm) (_elements sm) (_bindings sm)
    (f (indexes sm)).

End Monad.

Definition set_min (k : string) (i : Indexes) : Indexes := mkIndexes k (max i).
Definition set_max (k : string) (i : Indexes) : Indexes := mkIndexes (min i) k.

(** ** The binding graph *)

(** [set.add(x)] on a [Set<string>] *)
Definition set_add (x : string) (s : list string) : list string :=
  if bool_decide (x ∈ s) then s else s ++ [x].

(** [_addBinding(id0, id1)] *)
Definition _addBinding (id0 id1 : string) (b : gmap string (list string))
  : gmap string (list string) :=
  let b := if bool_decide (is_Some (b !! id0)) then b else <[id0 := []]> b in
  match b !! id0 with
  | Some s => <[id0 := set_add id1 s]> b
  | None => b
  end.

(** [_updateBindings(element)] *)
Definition _updateBindings (element : SurfaceElement)
  (b : gmap string (list string)) : gmap string (list string) :=
  match elementClass element with
  | ConnectorElement =>
      let b :=
        match startElement element with
        | Some start =>
            _addBinding (el_id element) start
              (_addBinding start (el_id element) b)
        | None => b
        end in
      match endElement element with
      | Some end_ =>
          _addBinding (el_id element) end_
            (_addBinding end_ (el_id element) b)
      | None => b
      end
  | PlainElement => b
  end.

(** ** The methods of [SurfaceManager] *)

Section SurfaceManager.
Context {R O : Type} `{!RendererOps R} `{!ElementTypes O} `{!KeyGenerator}.

(** The body of [this._yContainer.forEach(yElement => ...)] in
    [_syncFromExistingContainer]. *)
Definition syncElement (yElement : YMap) : M (R := R) unit :=
  let type := as_string (yElement !! "type") in
  ElementCtor ← assertExists (ElementCtors type);
  let element := mkElement yElement ElementCtor in
  modify (set_renderer (mount element));;
  modify (set_elements <[el_id element := element]>);;
  sm ← this;
  (if String.ltb (max (indexes sm)) (el_index element)
   then modify (set_indexes (set_max (el_index element)))
   else if String.ltb (el_index element) (min (indexes sm))
   then modify (set_indexes (set_min (el_index element)))
   else mret tt);;
  modify (set_bindings (_updateBindings element)).

(** [_syncFromExistingContainer()] *)
Definition _syncFromExistingContainer : M (R := R) unit :=
  sm ← this;
  forEach (fun '(_, yElement) => syncElement yElement) (_yContainer sm).

(** [new SurfaceManager(yContainer)]: the field initialisers, then the scan
    of the container. The observer it subscribes last is [_onYContainer]
    below. (The value transform it stores is handed to the wrappers and
    read by none of the methods modelled here.) *)
Definition SurfaceManager_new (yContainer : YContainer)
  : World R * Completion unit :=
  _syncFromExistingContainer
    (mkWorld (mkManager Renderer_new yContainer ∅ ∅ (mkIndexes "a0" "a0")) [] []).

(** The body of [event.keysChanged.forEach(id => ...)] in [_onYContainer]. *)
Definition onKey (event : YMapEvent) (id : string) : M (R := R) unit :=
  match changes_keys event !! id with
  | None => console_error "invalid event" event
  | Some ActionAdd =>
      sm ← this;
      yElement ← deref (yc_get id (_yContainer sm));
      let type := as_string (yElement !! "type") in
      ElementCtor ← assertExists (ElementCtors type);
      let element := mkElement yElement ElementCtor in
      modify (set_renderer (mount element));;
      modify (set_elements <[el_id element := element]>);;
      sm ← this;
      (if String.ltb (max (indexes sm)) (el_index element)
       then modify (set_indexes (set_max (el_index element)))
       else mret tt);;
      modify (set_bindings (_updateBindings element))
  | Some ActionUpdate =>
      console_error "update event on yElements is not supported" event
  | Some ActionDelete =>
      sm ← this;
      element ← assertExists (_elements sm !! id);
      modify (set_renderer (unmount element));;
      modify (set_elements (delete id));;
      sm ← this;
      match live_index element (_yContainer sm) with
      | VString index =>
          if String.eqb index (min (indexes sm))
          then modify (set_indexes (set_min (generateKeyBetween index null)))
          else mret tt
      | _ => mret tt
      end
  end.

(** [_onYContainer(event)] *)
Definition _onYContainer (event : YMapEvent) : M (R := R) unit :=
  if bool_decide (size (changes_keys event) = 0) then mret tt
  else forEach (onKey event) (keysChanged event).

(** [_transact(callback)]: [doc.transact] runs the callback between the
    brackets of one transaction, and closes the transaction when the
    callback throws. *)
Definition _transact (callback : M (R := R) unit) : M unit :=
  emit TransactBegin;;
  try_finally callback (emit TransactEnd).

(** [keys[i]]: [undefined] past the end of the array. *)
Definition of_key (k : option string) : Value :=
  match k with
  | Some s => VString s
  | None => VUndefined
  end.

(** [oldIndex === newIndex], for a [newIndex] that is a string or
    [undefined]. *)
Definition strict_eq_key (oldIndex : Value) (newIndex : option string) : bool :=
  match oldIndex, newIndex with
  | VString s, Some s' => String.eqb s s'
  | VUndefined, None => true
  | _, _ => false
  end.

(** The record of [id] with one field written. *)
Definition yc_set_field (id key : string) (v : Value) (c : YContainer)
  : YContainer :=
  match yc_get id c with
  | Some m => yc_set id (<[key := v]> m) c
  | None => c
  end.

(** [yElement.set(key, v)] on the record of [id] in the container. *)
Definition yElement_set (id key : string) (v : Value) : M (R := R) unit :=
  modify (set_yContainer (yc_set_field id key v));;
  emit (FieldSet id key v).

(** The loop [for (; i < len; i++)] of [updateIndexes], from position [i]
    on, over the elements that remain. *)
Fixpoint updateIndexes_loop (keys : list string) (i : nat)
  (elements : list SurfaceElement) : M (R := R) unit :=
  match elements with
  | [] => mret tt
  | element :: elements' =>
      let newIndex := keys !! i in
      sm ← this;
      yElement ← deref (yc_get (el_id element) (_yContainer sm));
      let oldIndex := ymap_get "index" yElement in
      (if strict_eq_key oldIndex newIndex then mret tt
       else yElement_set (el_id element) "index" (of_key newIndex));;
      updateIndexes_loop keys (S i) elements'
  end.

(** A caller's callback. *)
Definition Callback : Type :=
  list string -> SurfaceManager R -> SurfaceManager R * Completion unit.

(** [callback(keys)] *)
Definition call (callback : Callback) (keys : list string) : M (R := R) unit :=
  emit (CallbackCall keys);;
  host (callback keys).

(** [updateIndexes(keys, elements, callback)] *)
Definition updateIndexes (keys : list string) (elements : list SurfaceElement)
  (callback : Callback) : M (R := R) unit :=
  _transact (
    updateIndexes_loop keys 0 elements;;
    call callback keys).

(** [for (const key in props) yMap.set(key, props[key])] *)
Definition copy_props (props : YMap) : YMap :=
  foldr (fun '(key, v) (yMap : YMap) => <[key := v]> yMap) ∅ (map_to_list props).

(** [addElement(type, properties)]. [id] is the result of
    [generateElementId()] and [seed] the result of [randomSeed()]. *)
Definition addElement (id : string) (seed : float) (type : string)
  (properties : YMap) : M (R := R) string :=
  sm ← this;
  let defaultProps := ElementDefaultProps type in
  let props : YMap :=
    <["seed" := VNumber seed]>
      (<["index" := VString (generateKeyBetween (max (indexes sm)) null)]>
         (<["id" := VString id]> (properties ∪ defaultProps))) in
  let yMap := copy_props props in
  modify (set_yContainer (yc_set id yMap));;
  mret id.

(** [removeElement(id)] *)
Definition removeElement (id : string) : M (R := R) unit :=
  _transact (modify (set_yContainer (yc_delete id))).

(** [hasElement(id)] *)
Definition hasElement (id : string) (sm : SurfaceManager R) : bool :=
  yc_has id (_yContainer sm).

(** [pickById(id)] *)
Definition pickById (id : string) (sm : SurfaceManager R)
  : option SurfaceElement :=
  _elements sm !! id.

(** [pickByPoint(x, y, options)] *)
Definition pickByPoint (x y : float) (options : option O)
  (sm : SurfaceManager R) : list SurfaceElement :=
  let bound := mkBound (x - 1) (y - 1) 2 2 in
  let candidates := gridManager_search (_renderer sm) bound in
  let picked := List.filter (fun element => hitTest element x y options) candidates in
  picked.

(** [pickTop(x, y)]: [null] is [None]. *)
Definition pickTop (x y : float) (sm : SurfaceManager R)
  : option SurfaceElement :=
  let results := pickByPoint x y None sm in
  last results.

(** [getBindingElements(id)] *)
Definition getBindingElements (id : string) (sm : SurfaceManager R)
  : list SurfaceElement :=
  match _bindings sm !! id with
  | None => []
  | Some bindingIds =>
      if bool_decide (length bindingIds = 0) then []
      else omap (fun e => e)
             (map (fun bindingId => pickById bindingId sm) bindingIds)
  end.

(** Modelled from the spec: the container notifies its observer of a
    committed change; the manager's observer is [_onYContainer]. A call of
    the mutation API followed by the processing of its notification: *)
Definition addElement_observed (id : string) (seed : float) (type : string)
  (properties : YMap) : M (R := R) string :=
  sm ← this;
  r ← addElement id seed type properties;
  _onYContainer (event_of_set id (_yContainer sm));;
  mret r.

(** A write of another peer to the container, followed by the processing
    of its notification. *)
Definition peer_set_observed (id : string) (yMap : YMap) : M (R := R) unit :=
  sm ← this;
  modify (set_yContainer (yc_set id yMap));;
  _onYContainer (event_of_set id (_yContainer sm)).

Definition removeElement_observed (id : string) : M (R := R) unit :=
  sm ← this;
  removeElement id;;
  match event_of_delete id (_yContainer sm) with
  | Some event => _onYContainer event
  | None => mret tt
  end.

End SurfaceManager.

(** ** Reference collaborators

    Concrete collaborators, on which the methods can be run. *)

Module Ref.

(** The digit that follows [c] among [0-9A-Za-z], when there is one. *)
Definition next_digit (c : ascii) : option ascii :=
  let n := N_of_ascii c in
  if ((48 <=? n) && (n <? 57) || (65 <=? n) && (n <? 90)
      || (97 <=? n) && (n <? 122))%N
  then Some (ascii_of_N (n + 1))
  else if (n =? 57)%N then Some "A"%char
  else if (n =? 90)%N then Some "a"%char
  else None.

(** Modelled from the spec: the order-key generator of ./utils/std.js (not
    under src/), for "key after max with no upper bound", over "a
    variable-length base-N digit sequence with lexicographic string
    ordering": the last digit is replaced by the digit that follows it, and
    a key whose last digit has no follower gets one more digit. *)
Fixpoint key_after (a : string) : string :=
  match a with
  | EmptyString => "0"
  | String c EmptyString =>
      match next_digit c with
      | Some d => String d EmptyString
      | None => String c "0"
      end
  | String c a' => String c (key_after a')
  end.

#[export] Instance keyGenerator : KeyGenerator :=
  {| generateKeyBetween := fun a _ => key_after a |}.

(** Modelled from the spec: the geometry field [xywh], "x,y,w,h encoded
    compactly" (./utils/xywh.js is not under src/): the string [[x,y,w,h]],
    read here for coordinates that are written as natural numbers. *)
Definition digit_of (c : ascii) : option nat :=
  let n := nat_of_ascii c in
  if (48 <=? n)%nat && (n <=? 57)%nat then Some (n - 48)%nat else None.

Fixpoint parse_numbers (s : string) (current : option nat) (done : list nat)
  : option (list nat) :=
  match s with
  | EmptyString => None
  | String c s' =>
      if Ascii.eqb c "]" then
        match current, s' with
        | Some n, EmptyString => Some (rev (n :: done))
        | _, _ => None
        end
      else if Ascii.eqb c "," then
        match current with
        | Some n => parse_numbers s' None (n :: done)
        | None => None
        end
      else
        match digit_of c with
        | Some d => parse_numbers s' (Some (10 * default 0 current + d))%nat done
        | None => None
        end
  end.

Definition float_of_nat (n : nat) : float :=
  PrimFloat.of_uint63 (Uint63.of_Z (Z.of_nat n)).

Definition deserializeXYWH (xywh : string) : option IBound :=
  match xywh with
  | String c s =>
      if Ascii.eqb c "[" then
        match parse_numbers s None [] with
        | Some [x; y; w; h] =>
            Some (mkBound (float_of_nat x) (float_of_nat y) (float_of_nat w)
                    (float_of_nat h))
        | _ => None
        end
      else None
  | EmptyString => None
  end.

(** The bound of an element, when its record has one. *)
Definition element_bound (e : SurfaceElement) : option IBound :=
  deserializeXYWH (as_string (yMap e !! "xywh")).

(** Two bounds overlap; a bound holds a point. *)
Definition intersects (a b : IBound) : bool :=
  (b_x a <=? b_x b + b_w b)%float && (b_x b <=? b_x a + b_w a)%float &&
  (b_y a <=? b_y b + b_h b)%float && (b_y b <=? b_y a + b_h a)%float.

Definition holds (b : IBound) (x y : float) : bool :=
  (b_x b <=? x)%float && (x <=? b_x b + b_w b)%float &&
  (b_y b <=? y)%float && (y <=? b_y b + b_h b)%float.

(** The elements of [l] in ascending order of their keys; elements with
    the same key keep the order they have in [l]. *)
Fixpoint insert_by_index (e : SurfaceElement) (l : list SurfaceElement)
  : list SurfaceElement :=
  match l with
  | [] => [e]
  | e' :: l' =>
      if String.leb (el_index e) (el_index e') then e :: l
      else e' :: insert_by_index e l'
  end.

Definition sort_by_index (l : list SurfaceElement) : list SurfaceElement :=
  foldr insert_by_index [] l.

(** Modelled from the spec: a renderer (./renderer.js is not under src/),
    "the spatial index returning elements overlapping a given bound", whose
    "candidates are expected to arrive in ascending z-order": it holds the
    mounted elements, and a search returns those whose bound overlaps the
    bound searched, in ascending order of their keys. *)
Definition Renderer : Type := list SurfaceElement.

#[export] Instance rendererOps : RendererOps Renderer :=
  {| Renderer_new := [];
     mount := fun element (r : list SurfaceElement) => (r ++ [element])%list;
     unmount := fun element (r : list SurfaceElement) =>
       List.filter (fun e => negb (String.eqb (el_id e) (el_id element))) r;
     gridManager_search := fun r bound =>
       sort_by_index
         (List.filter
            (fun e =>
               match element_bound e with
               | Some b => intersects b bound
               | None => false
               end) r) |}.

(** Modelled from the spec: an element registry (./elements/index.js is
    not under src/) with the type tags [shape], [brush], [debug] and
    [connector], defaults that carry the type tag and an empty bound, and
    elements that are hit at the points of their bound. *)
Definition ctors (type : string) : option ElementClass :=
  if String.eqb type "connector" then Some ConnectorElement
  else if String.eqb type "shape" || String.eqb type "brush"
          || String.eqb type "debug"
  then Some PlainElement
  else None.

#[export] Instance elementTypes : ElementTypes unit :=
  {| ElementCtors := ctors;
     ElementDefaultProps := fun type =>
       {[ "type" := VString type; "xywh" := VString "[0,0,0,0]" ]};
     hitTest := fun e x y _ =>
       match element_bound e with
       | Some b => holds b x y
       | None => false
       end |}.

(** Records of the store. *)
Definition record (id type index : string) : YMap :=
  {[ "id" := VString id; "type" := VString type; "index" := VString index ]}.

Definition shape_record (id index xywh : string) : YMap :=
  <["xywh" := VString xywh]> (record id "shape" index).

Definition connector_record (id index start end_ : string) : YMap :=
  <["startElement" := VAttached start]>
    (<["endElement" := VAttached end_]> (record id "connector" index)).

End Ref.

(** ** The checkbox cell of the database block (part_000)

    [CheckboxCell], the cell of a checkbox column: a click asks the row
    host to store the toggled value, and the rendering shows the value the
    cell has. *)

Module CheckboxCell.

(** [this.cell]: a cell of a boolean column; the cell may be missing, and
    a cell may have no value yet. *)
Record Cell : Type := mkCell { value : option bool }.

(** [this.cell?.value]: [undefined] is [None]. *)
Definition cell_value (cell : option Cell) : option bool := cell ≫= value.

(** [!v], for a boolean or [undefined]. *)
Definition js_not (v : option bool) : bool :=
  match v with
  | Some true => false
  | Some false | None => true
  end.

(** [v ?? d] *)
Definition js_nullish (v : option bool) (d : bool) : bool := default d v.

(** The calls made on [this.rowHost]. *)
Inductive RowHostCall : Type := SetValue (checked : bool).

(** [_onChange()]: the call it makes on the row host. *)
Definition _onChange (cell : option Cell) : RowHostCall :=
  let checked := js_not (cell_value cell) in
  SetValue checked.

(** The icons of the list block. *)
Inductive Icon : Type := checkboxChecked | checkboxUnchecked.

(** [checked && 'checked']: the string, or [false]. *)
Inductive ClassPart : Type := ClassName (s : string) | ClassFalse.

(** The template [render] returns: the last part of the class attribute of
    the inner [div], and the icon in it. *)
Record Template : Type := mkTemplate { class_part : ClassPart; icon : Icon }.

(** [render()] *)
Definition render (cell : option Cell) : Template :=
  let checked := js_nullish (cell_value cell) false in
  let icon := if checked then checkboxChecked else checkboxUnchecked in
  mkTemplate (if checked then ClassName "checked" else ClassFalse) icon.

End CheckboxCell.

(** * The vocabulary of the properties *)

(** ** The effect of an entry on the manager *)

(** The bounds after the scan met a key, and after an add notification
    brought one. *)
Definition expand_bounds (index : string) (i : Indexes) : Indexes :=
  if String.ltb (max i) index then set_max index i
  else if String.ltb index (min i) then set_min index i
  else i.

Definition expand_max (index : string) (i : Indexes) : Indexes :=
  if String.ltb (max i) index then set_max index i else i.

(** The bounds after a wrapper was evicted whose key read [index] at that
    moment. *)
Definition regenerate_min `{!KeyGenerator} (index : Value) (i : Indexes)
  : Indexes :=
  match index with
  | VString index =>
      if String.eqb index (min i) then set_min (generateKeyBetween index null) i
      else i
  | _ => i
  end.

Section Effect.
Context {R O : Type} `{!RendererOps R} `{!ElementTypes O} `{!KeyGenerator}.

(** The manager once [element] is mounted, cached and bound. *)
Definition materialize (bounds : string -> Indexes -> Indexes)
  (element : SurfaceElement) (sm : SurfaceManager R) : SurfaceManager R :=
  mkManager (mount element (_renderer sm)) (_yContainer sm)
    (<[el_id element := element]> (_elements sm))
    (_updateBindings element (_bindings sm))
    (bounds (el_index element) (indexes sm)).

(** The manager once the wrapper [element], cached under [id], is unmounted
    and evicted. *)
Definition evict (element : SurfaceElement) (id : string)
  (sm : SurfaceManager R) : SurfaceManager R :=
  mkManager (unmount element (_renderer sm)) (_yContainer sm)
    (delete id (_elements sm)) (_bindings sm)
    (regenerate_min (live_index element (_yContainer sm)) (indexes sm)).

Definition with_manager (sm : SurfaceManager R) (w : World R) : World R :=
  mkWorld sm (console w) (doc_log w).

(** What an entry can do to the manager. *)
Inductive entry_effect (id : string) (sm : SurfaceManager R)
  : SurfaceManager R -> Prop :=
| effect_none : entry_effect id sm sm
| effect_add yElement cls :
    yc_get id (_yContainer sm) = Some yElement ->
    ElementCtors (as_string (yElement !! "type")) = Some cls ->
    entry_effect id sm (materialize expand_max (mkElement yElement cls) sm)
| effect_delete element :
    _elements sm !! id = Some element ->
    entry_effect id sm (evict element id sm).

(** The managers a run can reach: the constructed one, and from a reached
    one, the manager after the handler processed a change batch, and the
    manager over a container that was written to (by the mutation API or by
    another peer). *)
Inductive reachable : SurfaceManager R -> Prop :=
| reach_new yContainer w :
    SurfaceManager_new yContainer = (w, Normal tt) ->
    reachable (manager w)
| reach_notify event w :
    reachable (manager w) ->
    reachable (manager (_onYContainer event w).1)
| reach_write f sm :
    reachable sm ->
    reachable (set_yContainer f sm).

End Effect.

(** ** Entries, bounds, bindings, candidates *)

(** An entry of a change batch that carries an update, or no action. *)
Definition skipped_entry (event : YMapEvent) (id : string) : Prop :=
  changes_keys event !! id = None \/
  changes_keys event !! id = Some ActionUpdate.

(** Every live element's key is at most [indexes.max]. *)
Definition upper_bounded {R : Type} (sm : SurfaceManager R) : Prop :=
  forall id element,
    pickById id sm = Some element -> el_index element ≼ max (indexes sm).

(** Every live element's key lies between [indexes.min] and [indexes.max]. *)
Definition bounds_invariant {R : Type} (sm : SurfaceManager R) : Prop :=
  forall id element,
    pickById id sm = Some element ->
    min (indexes sm) ≼ el_index element /\ el_index element ≼ max (indexes sm).

(** The graph has the directed entry [a → t]. *)
Definition bound_to (b : gmap string (list string)) (a t : string) : Prop :=
  exists s, b !! a = Some s /\ t ∈ s.

(** The cache is keyed by the wrappers' ids, and the endpoints a cached
    connector carries are bound to it in both directions. *)
Definition bindings_invariant {R : Type} (sm : SurfaceManager R) : Prop :=
  (forall id element, pickById id sm = Some element -> el_id element = id) /\
  (forall id element t,
     pickById id sm = Some element ->
     elementClass element = ConnectorElement ->
     startElement element = Some t \/ endElement element = Some t ->
     bound_to (_bindings sm) id t /\ bound_to (_bindings sm) t id).

(** The binding graph mentions [id], as a source or as a target. *)
Definition mentions (id : string) (b : gmap string (list string)) : Prop :=
  is_Some (b !! id) \/ exists a, bound_to b a id.

(** The candidates arrive in ascending order of their keys. *)
Definition ascending (candidates : list SurfaceElement) : Prop :=
  Sorted (fun a b => el_index a ≼ el_index b) candidates.

Section Candidates.
Context {R O : Type} `{!RendererOps R} `{!ElementTypes O} `{!KeyGenerator}.

(** The candidates the spatial index returns for the probe bound of the
    point [(x, y)]. *)
Definition candidates_at (x y : float) (sm : SurfaceManager R)
  : list SurfaceElement :=
  gridManager_search (_renderer sm) (mkBound (x - 1) (y - 1) 2 2).

(** The contract of the spatial index at the point [(x, y)], from the
    specification: "candidates are expected to arrive in ascending
    z-order"; the index holds the mounted elements, so that a candidate is
    a live element; and it returns the "elements overlapping a given
    bound", among which is every live element whose hit test passes at the
    point. *)
Definition search_contract (x y : float) (sm : SurfaceManager R) : Prop :=
  ascending (candidates_at x y sm) /\
  (forall e, e ∈ candidates_at x y sm -> pickById (el_id e) sm = Some e) /\
  (forall id e,
     pickById id sm = Some e -> hitTest e x y None = true ->
     e ∈ candidates_at x y sm).

End Candidates.

(** ** Sequences of [addElement] calls *)

(** A call [addElement(type, properties)], with the id and the seed the
    generators return to it. *)
Record AddCall : Type := mkCall {
  call_id : string;
  call_seed : float;
  call_type : string;
  call_properties : YMap
}.

Section Calls.
Context {R O : Type} `{!RendererOps R} `{!ElementTypes O} `{!KeyGenerator}.

(** The order key a call assigned: the [index] of the record stored under
    the id the call returned. *)
Definition assigned_key (id : string) (sm : SurfaceManager R) : string :=
  match yc_get id (_yContainer sm) with
  | Some yMap => as_string (yMap !! "index")
  | None => ""
  end.

(** The type tag of the record a call stores. *)
Definition record_type (type : string) (properties : YMap) : string :=
  as_string ((properties ∪ ElementDefaultProps type) !! "type").

(** The calls, one after the other, each followed by the processing of its
    notification; for each call, the key it assigned and [indexes.max] as
    it is once the notification is processed. *)
Fixpoint addElements (calls : list AddCall)
  : M (R := R) (list (string * string)) :=
  match calls with
  | [] => mret []
  | c :: calls' =>
      id ← addElement_observed (call_id c) (call_seed c) (call_type c)
             (call_properties c);
      sm ← this;
      rest ← addElements calls';
      mret ((assigned_key id sm, max (indexes sm)) :: rest)
  end.

End Calls.

(** ** Bulk reassignment of order keys *)

(** The field writes of a log, replayed on a container. *)
Definition replay_write (c : YContainer) (d : DocEvent) : YContainer :=
  match d with
  | FieldSet id key v => yc_set_field id key v c
  | _ => c
  end.

Definition replay (writes : list DocEvent) (c : YContainer) : YContainer :=
  foldl replay_write c writes.

(** [yElement.get('index')] on the record of [id], as the container has it. *)
Definition current_index (id : string) (c : YContainer) : Value :=
  match yc_get id c with
  | Some yElement => ymap_get "index" yElement
  | None => VUndefined
  end.

(** The write of [keys[i + j]] to the record of [elements[j]]. *)
Definition index_write (keys : list string) (i : nat)
  (elements : list SurfaceElement) (j : nat) : option DocEvent :=
  match elements !! j with
  | Some e => Some (FieldSet (el_id e) "index" (of_key (keys !! (i + j)%nat)))
  | None => None
  end.

Section Writes.
Context {R O : Type} `{!RendererOps R} `{!ElementTypes O} `{!KeyGenerator}.

(** The world once the loop has made the writes [writes]. *)
Definition after_writes (writes : list DocEvent) (w : World R) : World R :=
  mkWorld (set_yContainer (replay writes) (manager w)) (console w)
    (doc_log w ++ writes).

End Writes.

(** ** More vocabulary *)

(** Every binding set is free of repetitions, as a [Set<string>] is. *)
Definition bindings_nodup (b : gmap string (list string)) : Prop :=
  forall a s, b !! a = Some s -> NoDup s.

(** Every directed entry of the graph has its reverse. *)
Definition bindings_symmetric (b : gmap string (list string)) : Prop :=
  forall a t, bound_to b a t -> bound_to b t a.

Section ScanVocabulary.
Context {R O : Type} `{!RendererOps R} `{!ElementTypes O} `{!KeyGenerator}.

(** The registry has a constructor for the type of the record. *)
Definition known_type (yElement : YMap) : Prop :=
  is_Some (ElementCtors (as_string (yElement !! "type"))).

(** The wrapper [new ElementCtor(yElement)] of a record, when the registry
    has a constructor for its type. *)
Definition wrapper_of (yElement : YMap) : option SurfaceElement :=
  mkElement yElement <$> ElementCtors (as_string (yElement !! "type")).

(** The order key of a record. *)
Definition record_index (yElement : YMap) : string :=
  as_string (yElement !! "index").

(** A container as the manager's own writes leave it: one entry per id,
    each record carrying the id it is stored under and a type the registry
    knows. *)
Definition well_formed (c : YContainer) : Prop :=
  NoDup c.*1 /\
  forall k yElement,
    (k, yElement) ∈ c -> as_string (yElement !! "id") = k /\ known_type yElement.

(** The cache holds, for every id, the wrapper of the record the container
    has under that id, and nothing else. *)
Definition mirrors (sm : SurfaceManager R) : Prop :=
  forall id, pickById id sm = yc_get id (_yContainer sm) ≫= wrapper_of.

(** The manager before the scan. *)
Definition initial_manager (yContainer : YContainer) : SurfaceManager R :=
  mkManager Renderer_new yContainer ∅ ∅ (mkIndexes "a0" "a0").

(** The manager after the scan went over the entries [l]. *)
Definition scan_manager (l : YContainer) (sm : SurfaceManager R)
  : SurfaceManager R :=
  foldl (fun sm '(_, yElement) =>
           match wrapper_of yElement with
           | Some element => materialize expand_bounds element sm
           | None => sm
           end) sm l.

End ScanVocabulary.

Section NewRecord.
Context {O : Type} `{!ElementTypes O} `{!KeyGenerator}.

(** The record [addElement] builds for the id [id] and the seed [seed] on
    the manager [sm]. *)
Definition new_record {R : Type} (id : string) (seed : float) (type : string)
  (properties : YMap) (sm : SurfaceManager R) : YMap :=
  <["seed" := VNumber seed]>
    (<["index" := VString (generateKeyBetween (max (indexes sm)) null)]>
       (<["id" := VString id]> (properties ∪ ElementDefaultProps type))).

End NewRecord.

(** The order keys of the records of a container, in its order. *)
Definition keys_of (c : YContainer) : list string :=
  (fun entry : string * YMap => as_string (entry.2 !! "index")) <$> c.

(** The bounds are the least and the greatest of [keys]. *)
Definition tight_bounds (keys : list string) (i : Indexes) : Prop :=
  min i ∈ keys /\ max i ∈ keys /\
  forall k, k ∈ keys -> min i ≼ k /\ k ≼ max i.

(** The entries of a batch that the handler acts on: those with an add or
    a delete action. *)
Definition acted_on (event : YMapEvent) (id : string) : bool :=
  match changes_keys event !! id with
  | Some ActionAdd | Some ActionDelete => true
  | Some ActionUpdate | None => false
  end.

(** The batch without the entries the handler only logs. *)
Definition acted_on_only (event : YMapEvent) : YMapEvent :=
  {| keysChanged := List.filter (acted_on event) (keysChanged event);
     changes_keys := changes_keys event |}.

(** The writes the loop of [updateIndexes] makes from position [i] on,
    over a container [c], up to the first element that has no record. *)
Fixpoint loop_writes (keys : list string) (i : nat)
  (elements : list SurfaceElement) (c : YContainer) : list DocEvent :=
  match elements with
  | [] => []
  | element :: elements' =>
      match yc_get (el_id element) c with
      | None => []
      | Some yElement =>
          if strict_eq_key (ymap_get "index" yElement) (keys !! i)
          then loop_writes keys (S i) elements' c
          else
            FieldSet (el_id element) "index" (of_key (keys !! i))
            :: loop_writes keys (S i) elements'
                 (yc_set_field (el_id element) "index" (of_key (keys !! i)) c)
      end
  end.

(** ** Scenarios on the reference collaborators *)

Section ScenarioData.
Import Ref.

(** Two shapes and a connector from the first to the second. *)
Definition connected : YContainer :=
  [("e1", record "e1" "shape" "a1");
   ("e2", record "e2" "shape" "a2");
   ("c", connector_record "c" "a3" "e1" "e2")].

Definition connected_world : World Renderer := (SurfaceManager_new connected).1.

(** The delete notification of the connector [c]. *)
Definition delete_c : YMapEvent :=
  {| keysChanged := ["c"]; changes_keys := {[ "c" := ActionDelete ]} |}.

(** A container whose entries are not in the order of their keys: [B]
    (key [a2], bound [(5,5,10,10)]) stands before [A] (key [a1], bound
    [(0,0,10,10)]). *)
Definition unordered : YContainer :=
  [("B", shape_record "B" "a2" "[5,5,10,10]");
   ("A", shape_record "A" "a1" "[0,0,10,10]")].

(** Another peer has written the record [e9] (key [a9]) to the container
    of [connected_world]; its add notification. *)
Definition e9_written : World Renderer :=
  with_manager
    (set_yContainer (yc_set "e9" (record "e9" "shape" "a9"))
       (manager connected_world))
    connected_world.

Definition add_e9 : YMapEvent := event_of_set "e9" connected.

(** The scenario of the specification: over an empty container, [A] with
    bound [(0,0,10,10)] is added, then [B] with bound [(5,5,10,10)]. *)
Definition two_adds_world : World Renderer :=
  (addElement_observed "B" 2 "shape" {[ "xywh" := VString "[5,5,10,10]" ]}
     (addElement_observed "A" 1 "shape" {[ "xywh" := VString "[0,0,10,10]" ]}
        (SurfaceManager_new []).1).1).1.

(** The wrappers of [A] and [B] in that scenario. *)
Definition wrapper_A : SurfaceElement :=
  mkElement
    (<["seed" := VNumber 1]>
       (<["type" := VString "shape"]> (shape_record "A" "a1" "[0,0,10,10]")))
    PlainElement.

Definition wrapper_B : SurfaceElement :=
  mkElement
    (<["seed" := VNumber 2]>
       (<["type" := VString "shape"]> (shape_record "B" "a2" "[5,5,10,10]")))
    PlainElement.

(** A batch with an update of [e1] and an id that has no action. *)
Definition update_e1 : YMapEvent :=
  {| keysChanged := ["e1"; "ghost"];
     changes_keys := {[ "e1" := ActionUpdate ]} |}.

(** A delete notification for an id that was never mounted. *)
Definition delete_ghost : YMapEvent :=
  {| keysChanged := ["ghost"]; changes_keys := {[ "ghost" := ActionDelete ]} |}.

(** Three calls; the second supplies an [id] and an [index] of its own. *)
Definition three_calls : list AddCall :=
  [mkCall "id1" 1 "shape" ∅;
   mkCall "id2" 2 "shape"
     {[ "id" := VString "mine"; "index" := VString "zz" ]};
   mkCall "id3" 3 "connector" {[ "startElement" := VAttached "id1" ]}].

(** A callback that does nothing. *)
Definition no_callback : Callback (R := Renderer) :=
  fun _ sm => (sm, Normal tt).

(** The wrappers of [e1] and [e2] of [connected], and a wrapper whose
    record is not in the container. *)
Definition element_e1 : SurfaceElement :=
  mkElement (record "e1" "shape" "a1") PlainElement.

Definition element_e2 : SurfaceElement :=
  mkElement (record "e2" "shape" "a2") PlainElement.

Definition element_ghost : SurfaceElement :=
  mkElement (record "ghost" "shape" "a9") PlainElement.

(** The add notification of an id the container does not have. *)
Definition add_ghost : YMapEvent :=
  {| keysChanged := ["ghost"]; changes_keys := {[ "ghost" := ActionAdd ]} |}.

(** A container with the shapes [A] (key [a0]) and [B] (key [a0V]), and
    the manager constructed over it: [A] holds [indexes.min]. *)
Definition two_boxes : YContainer :=
  [("A", shape_record "A" "a0" "[0,0,10,10]");
   ("B", shape_record "B" "a0V" "[5,5,10,10]")].

Definition two_boxes_world : World Renderer := (SurfaceManager_new two_boxes).1.


(** A delete entry for [A]. *)
Definition delete_A : YMapEvent :=
  {| keysChanged := ["A"]; changes_keys := {[ "A" := ActionDelete ]} |}.

End ScenarioData.

(** * Properties *)

(** ** The order of keys *)

Section KeyOrder.

Lemma key_lt_compare (a b : string) : a ≺ b <-> String.compare a b = Lt.
Proof.
  unfold Key.lt, String.ltb. destruct (String.compare a b); split; congruence.
Qed.

Lemma key_le_compare (a b : string) : a ≼ b <-> String.compare a b <> Gt.
Proof.
  unfold Key.le, String.leb. destruct (String.compare a b); split; congruence.
Qed.

Lemma key_lt_trans (a b c : string) : a ≺ b -> b ≺ c -> a ≺ c.
Proof.
  rewrite !key_lt_compare. intros Hab Hbc.
  apply String_as_OT.cmp_lt. apply String_as_OT.cmp_lt in Hab, Hbc.
  exact (String_as_OT.lt_trans _ _ _ Hab Hbc).
Qed.

Lemma key_lt_irrefl (a : string) : ~ a ≺ a.
Proof.
  rewrite key_lt_compare. intros H.
  assert (Heq : String.compare a a = Eq) by (apply String_as_OT.cmp_eq; reflexivity).
  congruence.
Qed.

Lemma key_le_refl (a : string) : a ≼ a.
Proof.
  rewrite key_le_compare.
  assert (Heq : String.compare a a = Eq) by (apply String_as_OT.cmp_eq; reflexivity).
  congruence.
Qed.

Lemma key_lt_le (a b : string) : a ≺ b -> a ≼ b.
Proof. rewrite key_lt_compare, key_le_compare. congruence. Qed.

(** [!(a < b)] gives [b <= a]: the order is total. *)
Lemma key_not_lt_le (a b : string) : String.ltb a b = false -> b ≼ a.
Proof.
  unfold String.ltb. rewrite key_le_compare, (String.compare_antisym b a).
  destruct (String.compare a b); simpl; congruence.
Qed.

Lemma key_le_not_lt (a b : string) : a ≼ b -> ~ b ≺ a.
Proof.
  rewrite key_le_compare, key_lt_compare, (String.compare_antisym b a).
  destruct (String.compare a b); simpl; congruence.
Qed.

Lemma key_le_cases (a b : string) : a ≼ b -> a = b \/ a ≺ b.
Proof.
  rewrite key_le_compare, key_lt_compare.
  destruct (String.compare a b) eqn:E; try congruence; auto.
  left. now apply String.compare_eq_iff.
Qed.

Lemma key_le_lt_trans (a b c : string) : a ≼ b -> b ≺ c -> a ≺ c.
Proof.
  intros [-> | Hab]%key_le_cases Hbc; [assumption |].
  exact (key_lt_trans _ _ _ Hab Hbc).
Qed.

Lemma key_lt_le_trans (a b c : string) : a ≺ b -> b ≼ c -> a ≺ c.
Proof.
  intros Hab [<- | Hbc]%key_le_cases; [assumption |].
  exact (key_lt_trans _ _ _ Hab Hbc).
Qed.

Lemma key_le_trans (a b c : string) : a ≼ b -> b ≼ c -> a ≼ c.
Proof.
  intros [-> | Hab]%key_le_cases Hbc; [assumption |].
  apply key_lt_le. exact (key_lt_le_trans _ _ _ Hab Hbc).
Qed.

End KeyOrder.

(** ** The container *)

Section Container.

Lemma yc_get_set_eq (id : string) (m : YMap) (c : YContainer) :
  yc_get id (yc_set id m c) = Some m.
Proof.
  induction c as [| [k m'] c IH]; simpl.
  - now rewrite String.eqb_refl.
  - destruct (String.eqb k id) eqn:E; simpl; rewrite E; auto.
Qed.

Lemma yc_get_set_ne (id id' : string) (m : YMap) (c : YContainer) :
  id <> id' -> yc_get id' (yc_set id m c) = yc_get id' c.
Proof.
  intros Hne. induction c as [| [k m'] c IH]; simpl.
  - destruct (String.eqb_spec id id'); congruence.
  - destruct (String.eqb_spec k id) as [-> | Hk]; simpl.
    + destruct (String.eqb_spec id id'); congruence.
    + destruct (String.eqb_spec k id'); auto.
Qed.

Lemma yc_get_delete_eq (id : string) (c : YContainer) :
  yc_get id (yc_delete id c) = None.
Proof.
  induction c as [| [k m'] c IH]; simpl; [reflexivity |].
  destruct (String.eqb k id) eqn:E; simpl; [assumption |].
  now rewrite E.
Qed.

Lemma yc_get_delete_ne (id id' : string) (c : YContainer) :
  id <> id' -> yc_get id' (yc_delete id c) = yc_get id' c.
Proof.
  intros Hne. induction c as [| [k m'] c IH]; simpl; [reflexivity |].
  destruct (String.eqb_spec k id) as [-> | Hk]; simpl.
  - destruct (String.eqb_spec id id'); congruence.
  - destruct (String.eqb_spec k id'); auto.
Qed.

Lemma yc_has_set_ne (id id' : string) (m : YMap) (c : YContainer) :
  id <> id' -> yc_has id' (yc_set id m c) = yc_has id' c.
Proof. intros Hne. unfold yc_has. now rewrite yc_get_set_ne. Qed.

Lemma copy_props_id (props : YMap) : copy_props props = props.
Proof.
  unfold copy_props.
  rewrite <- (list_to_map_to_list props) at 2.
  induction (map_to_list props) as [| [key v] l IH]; simpl.
  - reflexivity.
  - now rewrite IH.
Qed.

Lemma yc_get_set_field_ne (id id' key : string) (v : Value) (c : YContainer) :
  id <> id' -> yc_get id' (yc_set_field id key v c) = yc_get id' c.
Proof.
  intros Hne. unfold yc_set_field.
  destruct (yc_get id c); [now apply yc_get_set_ne | reflexivity].
Qed.

Lemma yc_get_set_field_eq (id key : string) (v : Value) (c : YContainer)
  (m : YMap) :
  yc_get id c = Some m ->
  yc_get id (yc_set_field id key v c) = Some (<[key := v]> m).
Proof. intros Hm. unfold yc_set_field. rewrite Hm. apply yc_get_set_eq. Qed.

Lemma yc_set_field_is_Some (id id' key : string) (v : Value) (c : YContainer) :
  is_Some (yc_get id' (yc_set_field id key v c)) <-> is_Some (yc_get id' c).
Proof.
  destruct (decide (id = id')) as [<- | Hne].
  - destruct (yc_get id c) as [m |] eqn:Hm.
    + rewrite (yc_get_set_field_eq _ _ _ _ _ Hm). split; eauto.
    + unfold yc_set_field. rewrite Hm. cbn. rewrite Hm. reflexivity.
  - rewrite yc_get_set_field_ne by exact Hne. reflexivity.
Qed.

Lemma current_index_set_field (id : string) (v : Value) (c : YContainer) :
  is_Some (yc_get id c) ->
  current_index id (yc_set_field id "index" v c) = v.
Proof.
  intros [m Hm]. unfold current_index.
  rewrite (yc_get_set_field_eq _ _ _ _ _ Hm). unfold ymap_get.
  now rewrite lookup_insert_eq.
Qed.

Lemma strict_eq_key_of_key (k : option string) :
  strict_eq_key (of_key k) k = true.
Proof. destruct k as [s |]; simpl; [apply String.eqb_refl | reflexivity]. Qed.

Lemma replay_is_Some (writes : list DocEvent) (id : string) (c : YContainer) :
  is_Some (yc_get id (replay writes c)) <-> is_Some (yc_get id c).
Proof.
  revert c. induction writes as [| d writes IH]; intros c; simpl.
  - reflexivity.
  - unfold replay in *. simpl. rewrite IH.
    destruct d; simpl; try reflexivity. apply yc_set_field_is_Some.
Qed.

(** Writes to other records leave the record of [id] as it is. *)
Lemma replay_other (writes : list DocEvent) (id : string) (c : YContainer) :
  Forall (fun d => forall id' key v, d = FieldSet id' key v -> id' <> id)
    writes ->
  yc_get id (replay writes c) = yc_get id c.
Proof.
  revert c. induction writes as [| d writes IH]; intros c Hother; simpl.
  - reflexivity.
  - apply Forall_cons in Hother as [Hd Hother].
    unfold replay in *. simpl. rewrite IH by exact Hother.
    destruct d; simpl; try reflexivity.
    apply yc_get_set_field_ne. now apply (Hd id0 key v).
Qed.

End Container.

(** ** Running the methods *)

Ltac munfold :=
  unfold mbind, M_bind, mret, M_ret, this, modify, throw, console_error, emit,
    host in *.

Section Iteration.
Context {R A : Type}.

Lemma forEach_app (f : A -> M (R := R) unit) (l1 l2 : list A) (w : World R) :
  forEach f (l1 ++ l2) w =
  match forEach f l1 w with
  | (w', Normal _) => forEach f l2 w'
  | (w', Throw e) => (w', Throw e)
  end.
Proof.
  revert w. induction l1 as [| a l1 IH]; intros w; simpl.
  - reflexivity.
  - munfold. destruct (f a w) as [w1 [[] | e]]; [apply IH | reflexivity].
Qed.

End Iteration.

(** ** The effect of an entry on the manager *)

Section Effects.
Context {R O : Type} `{!RendererOps R} `{!ElementTypes O} `{!KeyGenerator}.

Lemma onKey_add (event : YMapEvent) (id : string) (w : World R)
  (yElement : YMap) (cls : ElementClass) :
  changes_keys event !! id = Some ActionAdd ->
  yc_get id (_yContainer (manager w)) = Some yElement ->
  ElementCtors (as_string (yElement !! "type")) = Some cls ->
  onKey event id w =
  (with_manager (materialize expand_max (mkElement yElement cls) (manager w)) w,
   Normal tt).
Proof.
  intros Hadd Hget Hctor. unfold onKey. rewrite Hadd. munfold. simpl.
  rewrite Hget. simpl. rewrite Hctor. simpl.
  unfold with_manager, materialize, expand_max. simpl.
  destruct (String.ltb _ _); reflexivity.
Qed.

Lemma onKey_add_no_record (event : YMapEvent) (id : string) (w : World R) :
  changes_keys event !! id = Some ActionAdd ->
  yc_get id (_yContainer (manager w)) = None ->
  onKey event id w = (w, Throw TypeError).
Proof.
  intros Hadd Hget. unfold onKey. rewrite Hadd. munfold. simpl.
  now rewrite Hget.
Qed.

Lemma onKey_add_no_ctor (event : YMapEvent) (id : string) (w : World R)
  (yElement : YMap) :
  changes_keys event !! id = Some ActionAdd ->
  yc_get id (_yContainer (manager w)) = Some yElement ->
  ElementCtors (as_string (yElement !! "type")) = None ->
  onKey event id w = (w, Throw AssertionError).
Proof.
  intros Hadd Hget Hctor. unfold onKey. rewrite Hadd. munfold. simpl.
  rewrite Hget. simpl. now rewrite Hctor.
Qed.

Lemma onKey_delete (event : YMapEvent) (id : string) (w : World R)
  (element : SurfaceElement) :
  changes_keys event !! id = Some ActionDelete ->
  _elements (manager w) !! id = Some element ->
  onKey event id w = (with_manager (evict element id (manager w)) w, Normal tt).
Proof.
  intros Hdelete Hget. unfold onKey. rewrite Hdelete. munfold. simpl.
  rewrite Hget. simpl.
  unfold with_manager, evict, regenerate_min. simpl.
  destruct (live_index element (_yContainer (manager w))) as [| index | |];
    try reflexivity.
  destruct (String.eqb _ _); reflexivity.
Qed.

Lemma onKey_unresolved (event : YMapEvent) (id : string) (w : World R) :
  changes_keys event !! id = None ->
  onKey event id w =
  (mkWorld (manager w) (console w ++ [ConsoleError "invalid event" event])
     (doc_log w), Normal tt).
Proof. intros Hnone. unfold onKey. now rewrite Hnone. Qed.

Lemma onKey_update (event : YMapEvent) (id : string) (w : World R) :
  changes_keys event !! id = Some ActionUpdate ->
  onKey event id w =
  (mkWorld (manager w)
     (console w ++
      [ConsoleError "update event on yElements is not supported" event])
     (doc_log w), Normal tt).
Proof. intros Hupdate. unfold onKey. now rewrite Hupdate. Qed.

Lemma onKey_delete_no_wrapper (event : YMapEvent) (id : string) (w : World R) :
  changes_keys event !! id = Some ActionDelete ->
  _elements (manager w) !! id = None ->
  onKey event id w = (w, Throw AssertionError).
Proof.
  intros Hdelete Hnone. unfold onKey. rewrite Hdelete. munfold. simpl.
  now rewrite Hnone.
Qed.

Lemma syncElement_run (yElement : YMap) (cls : ElementClass) (w : World R) :
  ElementCtors (as_string (yElement !! "type")) = Some cls ->
  syncElement yElement w =
  (with_manager
     (materialize expand_bounds (mkElement yElement cls) (manager w)) w,
   Normal tt).
Proof.
  intros Hctor. unfold syncElement. munfold. simpl. rewrite Hctor. simpl.
  unfold with_manager, materialize, expand_bounds. simpl.
  destruct (String.ltb (max _) _); [reflexivity |].
  destruct (String.ltb _ (min _)); reflexivity.
Qed.

Lemma syncElement_no_ctor (yElement : YMap) (w : World R) :
  ElementCtors (as_string (yElement !! "type")) = None ->
  syncElement yElement w = (w, Throw AssertionError).
Proof.
  intros Hctor. unfold syncElement. munfold. simpl. now rewrite Hctor.
Qed.

Lemma onKey_effect (event : YMapEvent) (id : string) (w : World R) :
  entry_effect id (manager w) (manager (onKey event id w).1).
Proof.
  destruct (changes_keys event !! id) as [[] |] eqn:Haction.
  - destruct (yc_get id (_yContainer (manager w))) as [yElement |] eqn:Hget.
    + destruct (ElementCtors (as_string (yElement !! "type")))
        as [cls |] eqn:Hctor.
      * rewrite (onKey_add _ _ _ _ _ Haction Hget Hctor). simpl.
        now apply effect_add.
      * rewrite (onKey_add_no_ctor _ _ _ _ Haction Hget Hctor). constructor.
    + rewrite (onKey_add_no_record _ _ _ Haction Hget). constructor.
  - rewrite (onKey_update _ _ _ Haction). constructor.
  - destruct (_elements (manager w) !! id) as [element |] eqn:Hget.
    + rewrite (onKey_delete _ _ _ _ Haction Hget). simpl.
      now apply effect_delete.
    + rewrite (onKey_delete_no_wrapper _ _ _ Haction Hget). constructor.
  - rewrite (onKey_unresolved _ _ _ Haction). constructor.
Qed.

Lemma onYContainer_single (event : YMapEvent) (id : string) (w : World R) :
  keysChanged event = [id] ->
  is_Some (changes_keys event !! id) ->
  _onYContainer event w =
  match onKey event id w with
  | (w', Normal _) => (w', Normal tt)
  | (w', Throw e) => (w', Throw e)
  end.
Proof.
  intros Hkeys [a Ha]. unfold _onYContainer.
  rewrite bool_decide_eq_false_2.
  - rewrite Hkeys. cbn [forEach]. munfold.
    destruct (onKey event id w) as [w' [[] | e]]; reflexivity.
  - intros Hsize. apply map_size_empty_iff in Hsize.
    rewrite Hsize, lookup_empty in Ha. discriminate.
Qed.

End Effects.

(** ** Entries that are logged and skipped, entries that throw *)

Section Entries.
Context {R O : Type} `{!RendererOps R} `{!ElementTypes O} `{!KeyGenerator}.

(** C8. An entry of a change batch whose action is [update], and an entry
    with no resolvable action, is logged with [console.error] and skipped:
    the entry completes normally, the manager (element cache, binding graph,
    order bounds, and the rest of its fields) is exactly as before, and the
    handler goes on with the entries that follow. *)
Theorem onKey_skipped_entry (event : YMapEvent) (id : string) (w : World R) :
  skipped_entry event id ->
  exists message,
    let w' := mkWorld (manager w)
                (console w ++ [ConsoleError message event]) (doc_log w) in
    onKey event id w = (w', Normal tt) /\
    forall rest,
      forEach (onKey event) (id :: rest) w = forEach (onKey event) rest w'.
Proof.
  intros Hskip.
  assert (Hone : exists message,
             onKey event id w =
             (mkWorld (manager w) (console w ++ [ConsoleError message event])
                (doc_log w), Normal tt)).
  { destruct Hskip as [Hnone | Hupdate].
    - eexists. now apply onKey_unresolved.
    - eexists. now apply onKey_update. }
  destruct Hone as [message Hone]. exists message. cbn zeta.
  split; [exact Hone |].
  intros rest. cbn [forEach]. munfold. now rewrite Hone.
Qed.

(** C10. A [delete] entry for an id that has no wrapper in the element cache
    is not skipped: [assertExists] throws, the state is left as it was
    before the entry, the entries that follow in the batch are not
    processed, and the handler ends with the exception. *)
Theorem onKey_delete_unmatched (event : YMapEvent) (id : string) (w : World R) :
  changes_keys event !! id = Some ActionDelete ->
  pickById id (manager w) = None ->
  onKey event id w = (w, Throw AssertionError) /\
  (forall rest,
     forEach (onKey event) (id :: rest) w = (w, Throw AssertionError)) /\
  (forall before rest w0,
     keysChanged event = (before ++ id :: rest)%list ->
     forEach (onKey event) before w0 = (w, Normal tt) ->
     _onYContainer event w0 = (w, Throw AssertionError)).
Proof.
  intros Hdelete Hnone. unfold pickById in Hnone.
  assert (Hone : onKey event id w = (w, Throw AssertionError))
    by now apply onKey_delete_no_wrapper.
  assert (Hrest : forall rest,
             forEach (onKey event) (id :: rest) w = (w, Throw AssertionError)).
  { intros rest. cbn [forEach]. munfold. now rewrite Hone. }
  split; [exact Hone |]. split; [exact Hrest |].
  intros before rest w0 Hkeys Hbefore. unfold _onYContainer.
  rewrite bool_decide_eq_false_2.
  - rewrite Hkeys, forEach_app, Hbefore. apply Hrest.
  - intros Hsize. apply map_size_empty_iff in Hsize.
    rewrite Hsize, lookup_empty in Hdelete. discriminate.
Qed.

(** C9. [addElement] stores, under the generated id, a record whose [id],
    [index] and [seed] fields are the ones the manager generated, whatever
    the caller supplied for them; every other field is the caller's when
    the caller supplied it and the type's default otherwise; and the call
    returns the generated id. *)
Theorem addElement_record (id : string) (seed : float) (type : string)
  (properties : YMap) (w : World R) :
  exists (w' : World R) (yMap : YMap),
    addElement id seed type properties w = (w', Normal id) /\
    yc_get id (_yContainer (manager w')) = Some yMap /\
    yMap !! "id" = Some (VString id) /\
    yMap !! "index" =
      Some (VString (generateKeyBetween (max (indexes (manager w))) null)) /\
    yMap !! "seed" = Some (VNumber seed) /\
    forall key : string,
      key <> "id" -> key <> "index" -> key <> "seed" ->
      yMap !! key =
        match properties !! key with
        | Some v => Some v
        | None => ElementDefaultProps type !! key
        end.
Proof.
  unfold addElement. munfold. simpl.
  eexists. eexists. split; [reflexivity |]. simpl.
  rewrite copy_props_id, yc_get_set_eq.
  split; [reflexivity |].
  split; [now rewrite lookup_insert_ne, lookup_insert_ne, lookup_insert_eq |].
  split; [now rewrite lookup_insert_ne, lookup_insert_eq |].
  split; [now rewrite lookup_insert_eq |].
  intros key Hid Hindex Hseed.
  rewrite !lookup_insert_ne by congruence.
  rewrite lookup_union. destruct (properties !! key), (ElementDefaultProps type !! key); reflexivity.
Qed.

End Entries.

(** ** Properties kept by the scan and by the handler *)

Section Preservation.
Context {R O : Type} `{!RendererOps R} `{!ElementTypes O} `{!KeyGenerator}.

Lemma forEach_preserves {A : Type} (P : SurfaceManager R -> Prop)
  (f : A -> M (R := R) unit) (l : list A) :
  (forall a w, P (manager w) -> P (manager (f a w).1)) ->
  forall w, P (manager w) -> P (manager (forEach f l w).1).
Proof.
  intros Hstep. induction l as [| a l IH]; intros w Hw; simpl.
  - exact Hw.
  - munfold. specialize (Hstep a w Hw).
    destruct (f a w) as [w1 [[] | e]]; simpl in *.
    + now apply IH.
    + exact Hstep.
Qed.

(** A property kept by every effect of an entry is kept by the handler. *)
Lemma handler_preserves (P : SurfaceManager R -> Prop) :
  (forall id sm sm', P sm -> entry_effect id sm sm' -> P sm') ->
  forall event w, P (manager w) -> P (manager (_onYContainer event w).1).
Proof.
  intros Hstep event w Hw. unfold _onYContainer.
  destruct (bool_decide _); [exact Hw |].
  apply forEach_preserves; [| exact Hw].
  intros id w1 Hw1. exact (Hstep id _ _ Hw1 (onKey_effect event id w1)).
Qed.

(** A property of the fresh manager kept by every step of the scan holds of
    the constructed manager. *)
Lemma scan_preserves (P : SurfaceManager R -> Prop) :
  (forall element sm, P sm -> P (materialize expand_bounds element sm)) ->
  forall yContainer,
    P (mkManager Renderer_new yContainer ∅ ∅ (mkIndexes "a0" "a0")) ->
    P (manager (SurfaceManager_new yContainer).1).
Proof.
  intros Hstep yContainer Hinit.
  unfold SurfaceManager_new, _syncFromExistingContainer. munfold. simpl.
  apply forEach_preserves; [| exact Hinit].
  intros [id yElement] w Hw.
  destruct (ElementCtors (as_string (yElement !! "type"))) as [cls |] eqn:Hctor.
  - rewrite (syncElement_run _ _ _ Hctor). simpl. now apply Hstep.
  - now rewrite (syncElement_no_ctor _ _ Hctor).
Qed.

End Preservation.

(** ** The order bounds *)

Section Bounds.
Context {R O : Type} `{!RendererOps R} `{!ElementTypes O} `{!KeyGenerator}.

Lemma expand_max_min (index : string) (i : Indexes) :
  min (expand_max index i) = min i.
Proof. unfold expand_max. now destruct (String.ltb _ _). Qed.

Lemma expand_max_grows (index : string) (i : Indexes) :
  max i ≼ max (expand_max index i).
Proof.
  unfold expand_max. destruct (String.ltb _ _) eqn:Hlt; simpl.
  - now apply key_lt_le.
  - apply key_le_refl.
Qed.

Lemma expand_max_covers (index : string) (i : Indexes) :
  index ≼ max (expand_max index i).
Proof.
  unfold expand_max. destruct (String.ltb _ _) eqn:Hlt; simpl.
  - apply key_le_refl.
  - now apply key_not_lt_le.
Qed.

Lemma materialize_expand_max_upper (element : SurfaceElement)
  (sm : SurfaceManager R) :
  upper_bounded sm -> upper_bounded (materialize expand_max element sm).
Proof.
  intros Hsm id e. unfold pickById, materialize. simpl.
  destruct (decide (el_id element = id)) as [<- | Hne].
  - rewrite lookup_insert_eq. intros [= <-]. apply expand_max_covers.
  - rewrite lookup_insert_ne by exact Hne. intros He.
    eapply key_le_trans; [exact (Hsm _ _ He) | apply expand_max_grows].
Qed.

Lemma materialize_expand_max_bounds (element : SurfaceElement)
  (sm : SurfaceManager R) :
  min (indexes sm) ≼ el_index element ->
  bounds_invariant sm -> bounds_invariant (materialize expand_max element sm).
Proof.
  intros Hmin Hsm id e. unfold pickById, materialize. simpl.
  rewrite expand_max_min.
  destruct (decide (el_id element = id)) as [<- | Hne].
  - rewrite lookup_insert_eq. intros [= <-].
    split; [exact Hmin | apply expand_max_covers].
  - rewrite lookup_insert_ne by exact Hne. intros He.
    destruct (Hsm _ _ He) as [Hlo Hhi]. split; [exact Hlo |].
    eapply key_le_trans; [exact Hhi | apply expand_max_grows].
Qed.

(** The scan keeps [min <= max] and the two bounds. *)
Lemma materialize_expand_bounds_ok (element : SurfaceElement)
  (sm : SurfaceManager R) :
  min (indexes sm) ≼ max (indexes sm) /\ bounds_invariant sm ->
  min (indexes (materialize expand_bounds element sm))
    ≼ max (indexes (materialize expand_bounds element sm)) /\
  bounds_invariant (materialize expand_bounds element sm).
Proof.
  intros [Hmm Hsm].
  assert (Hnew :
    let i := expand_bounds (el_index element) (indexes sm) in
    min i ≼ max i /\ min i ≼ min (indexes sm) /\ max (indexes sm) ≼ max i /\
    min i ≼ el_index element /\ el_index element ≼ max i).
  { unfold expand_bounds.
    destruct (String.ltb (max (indexes sm)) (el_index element)) eqn:Hhi; simpl.
    - assert (Hlt : min (indexes sm) ≺ el_index element)
        by (eapply key_le_lt_trans; [exact Hmm | exact Hhi]).
      repeat split; auto using key_lt_le, key_le_refl.
    - apply key_not_lt_le in Hhi.
      destruct (String.ltb (el_index element) (min (indexes sm))) eqn:Hlo; simpl.
      + repeat split; auto using key_lt_le, key_le_refl.
      + apply key_not_lt_le in Hlo.
        repeat split; auto using key_le_refl. }
  simpl in Hnew. destruct Hnew as (H1 & H2 & H3 & H4 & H5).
  split; [exact H1 |].
  intros id e. unfold pickById, materialize. simpl.
  destruct (decide (el_id element = id)) as [<- | Hne].
  - rewrite lookup_insert_eq. intros [= <-]. now split.
  - rewrite lookup_insert_ne by exact Hne. intros He.
    destruct (Hsm _ _ He) as [Hlo Hhi].
    split; [exact (key_le_trans _ _ _ H2 Hlo) | exact (key_le_trans _ _ _ Hhi H3)].
Qed.

(** C4, as amended. After construction every live element's key lies
    between [indexes.min] and [indexes.max]. An add notification never
    changes [indexes.min] and only raises [indexes.max]: it keeps every live
    element's key at most [indexes.max], and it keeps the keys at least
    [indexes.min] when the key of the record it adds is not below
    [indexes.min]. *)
Theorem bounds_after_scan_and_add :
  (forall yContainer : YContainer,
     bounds_invariant (manager (R := R) (SurfaceManager_new yContainer).1)) /\
  (forall (event : YMapEvent) (id : string) (w : World R),
     changes_keys event !! id = Some ActionAdd ->
     let sm := manager w in
     let sm' := manager (onKey event id w).1 in
     min (indexes sm') = min (indexes sm) /\
     max (indexes sm) ≼ max (indexes sm') /\
     (upper_bounded sm -> upper_bounded sm') /\
     (bounds_invariant sm ->
      (forall yElement,
         yc_get id (_yContainer sm) = Some yElement ->
         min (indexes sm) ≼ as_string (yElement !! "index")) ->
      bounds_invariant sm')).
Proof.
  split.
  - intros yContainer.
    apply (scan_preserves
             (fun sm => min (indexes sm) ≼ max (indexes sm) /\
                        bounds_invariant sm)).
    + intros element sm. apply materialize_expand_bounds_ok.
    + split; [apply key_le_refl |].
      intros id e. unfold pickById. simpl. now rewrite lookup_empty.
  - intros event id w Hadd sm sm'. subst sm sm'.
    destruct (yc_get id (_yContainer (manager w))) as [yElement |] eqn:Hget.
    + destruct (ElementCtors (as_string (yElement !! "type")))
        as [cls |] eqn:Hctor.
      * rewrite (onKey_add _ _ _ _ _ Hadd Hget Hctor). simpl.
        split; [apply expand_max_min |].
        split; [apply expand_max_grows |].
        split; [apply materialize_expand_max_upper |].
        intros Hinv Hmin. apply materialize_expand_max_bounds; [| exact Hinv].
        exact (Hmin _ eq_refl).
      * rewrite (onKey_add_no_ctor _ _ _ _ Hadd Hget Hctor). simpl.
        split; [reflexivity |]. split; [apply key_le_refl |]. now split.
    + rewrite (onKey_add_no_record _ _ _ Hadd Hget). simpl.
      split; [reflexivity |]. split; [apply key_le_refl |]. now split.
Qed.

End Bounds.

(** ** The binding graph *)

Section BindingGraph.

Lemma set_add_here (x : string) (s : list string) : x ∈ set_add x s.
Proof.
  unfold set_add. case_bool_decide; [assumption |].
  apply elem_of_app. right. apply list_elem_of_singleton. reflexivity.
Qed.

Lemma set_add_mono (x y : string) (s : list string) : y ∈ s -> y ∈ set_add x s.
Proof.
  intros Hy. unfold set_add. case_bool_decide; [assumption |].
  apply elem_of_app. now left.
Qed.

Lemma _addBinding_here (id0 id1 : string) (b : gmap string (list string)) :
  bound_to (_addBinding id0 id1 b) id0 id1.
Proof.
  unfold _addBinding, bound_to. case_bool_decide as Hsome.
  - destruct Hsome as [s Hs]. rewrite Hs. exists (set_add id1 s).
    rewrite lookup_insert_eq. split; [reflexivity | apply set_add_here].
  - rewrite lookup_insert_eq. exists (set_add id1 []).
    rewrite lookup_insert_eq. split; [reflexivity | apply set_add_here].
Qed.

Lemma _addBinding_mono (id0 id1 a t : string) (b : gmap string (list string)) :
  bound_to b a t -> bound_to (_addBinding id0 id1 b) a t.
Proof.
  intros [s [Hs Ht]]. unfold _addBinding, bound_to.
  case_bool_decide as Hsome.
  - destruct Hsome as [s0 Hs0]. rewrite Hs0.
    destruct (decide (id0 = a)) as [-> | Hne].
    + rewrite lookup_insert_eq. exists (set_add id1 s0).
      split; [reflexivity |]. apply set_add_mono. congruence.
    + rewrite lookup_insert_ne by exact Hne. now exists s.
  - rewrite lookup_insert_eq.
    destruct (decide (id0 = a)) as [-> | Hne].
    + exfalso. apply Hsome. now exists s.
    + rewrite !lookup_insert_ne by exact Hne. now exists s.
Qed.

Lemma _updateBindings_mono (element : SurfaceElement) (a t : string)
  (b : gmap string (list string)) :
  bound_to b a t -> bound_to (_updateBindings element b) a t.
Proof.
  intros Hb. unfold _updateBindings.
  destruct (elementClass element); [| exact Hb].
  destruct (startElement element), (endElement element);
    auto using _addBinding_mono.
Qed.

Lemma _updateBindings_endpoint (element : SurfaceElement) (t : string)
  (b : gmap string (list string)) :
  elementClass element = ConnectorElement ->
  startElement element = Some t \/ endElement element = Some t ->
  bound_to (_updateBindings element b) (el_id element) t /\
  bound_to (_updateBindings element b) t (el_id element).
Proof.
  intros Hclass Hend. unfold _updateBindings. rewrite Hclass.
  destruct Hend as [Hstart | Hend].
  - rewrite Hstart. destruct (endElement element);
      auto using _addBinding_mono, _addBinding_here.
  - rewrite Hend. split.
    + apply _addBinding_here.
    + apply _addBinding_mono, _addBinding_here.
Qed.

End BindingGraph.

Section Bindings.
Context {R O : Type} `{!RendererOps R} `{!ElementTypes O} `{!KeyGenerator}.

Lemma materialize_bindings_invariant (bounds : string -> Indexes -> Indexes)
  (element : SurfaceElement) (sm : SurfaceManager R) :
  bindings_invariant sm -> bindings_invariant (materialize bounds element sm).
Proof.
  intros [Hkey Hbound]. split.
  - intros id e. unfold pickById, materialize. simpl.
    destruct (decide (el_id element = id)) as [<- | Hne].
    + rewrite lookup_insert_eq. now intros [= <-].
    + rewrite lookup_insert_ne by exact Hne. apply Hkey.
  - intros id e t. unfold pickById, materialize. simpl.
    destruct (decide (el_id element = id)) as [<- | Hne].
    + rewrite lookup_insert_eq. intros [= <-]. apply _updateBindings_endpoint.
    + rewrite lookup_insert_ne by exact Hne. intros He Hclass Hend.
      destruct (Hbound _ _ _ He Hclass Hend).
      split; now apply _updateBindings_mono.
Qed.

Lemma evict_bindings_invariant (element : SurfaceElement) (id : string)
  (sm : SurfaceManager R) :
  bindings_invariant sm -> bindings_invariant (evict element id sm).
Proof.
  intros [Hkey Hbound]. split.
  - intros id' e. unfold pickById, evict. simpl.
    intros [_ He]%lookup_delete_Some. now apply Hkey.
  - intros id' e t. unfold pickById, evict. simpl.
    intros [_ He]%lookup_delete_Some. now apply Hbound.
Qed.

Lemma entry_effect_bindings_invariant (id : string) (sm sm' : SurfaceManager R) :
  bindings_invariant sm -> entry_effect id sm sm' -> bindings_invariant sm'.
Proof.
  intros Hsm [| yElement cls _ _ | element _].
  - exact Hsm.
  - now apply materialize_bindings_invariant.
  - now apply evict_bindings_invariant.
Qed.

(** The handler removes no entry of the graph. *)
Lemma entry_effect_bound_to (a t id : string) (sm sm' : SurfaceManager R) :
  bound_to (_bindings sm) a t -> entry_effect id sm sm' ->
  bound_to (_bindings sm') a t.
Proof.
  intros Hsm [| yElement cls _ _ | element _]; simpl.
  - exact Hsm.
  - now apply _updateBindings_mono.
  - exact Hsm.
Qed.

Lemma reachable_bindings_invariant (sm : SurfaceManager R) :
  reachable sm -> bindings_invariant sm.
Proof.
  induction 1 as [yContainer w Hnew | event w _ IH | f sm _ IH].
  - replace w with (SurfaceManager_new yContainer).1 by now rewrite Hnew.
    apply (scan_preserves bindings_invariant).
    + intros element sm. apply materialize_bindings_invariant.
    + split.
      * intros id e. unfold pickById. simpl. now rewrite lookup_empty.
      * intros id e t. unfold pickById. simpl. now rewrite lookup_empty.
  - apply (handler_preserves bindings_invariant); [| exact IH].
    intros id sm sm' Hsm Heff.
    exact (entry_effect_bindings_invariant _ _ _ Hsm Heff).
  - exact IH.
Qed.

Lemma elem_of_resolve (f : string -> option SurfaceElement) (s : list string)
  (e : SurfaceElement) :
  e ∈ omap (fun x => x) (map f s) <-> exists k, k ∈ s /\ f k = Some e.
Proof.
  induction s as [| k s IH]; simpl.
  - split; [intros []%elem_of_nil | intros [k [[]%elem_of_nil _]]].
  - destruct (f k) as [e' |] eqn:Hk.
    + rewrite elem_of_cons, IH. split.
      * intros [-> | [k' [Hk' He]]].
        -- exists k. split; [apply elem_of_cons; now left | exact Hk].
        -- exists k'. split; [apply elem_of_cons; now right | exact He].
      * intros [k' [[-> | Hk']%elem_of_cons He]].
        -- left. congruence.
        -- right. now exists k'.
    + rewrite IH. split.
      * intros [k' [Hk' He]].
        exists k'. split; [apply elem_of_cons; now right | exact He].
      * intros [k' [[-> | Hk']%elem_of_cons He]]; [congruence |].
        now exists k'.
Qed.

(** [getBindingElements(id)] is the list of the live wrappers of the ids
    bound to [id]. *)
Lemma elem_of_getBindingElements (id : string) (sm : SurfaceManager R)
  (e : SurfaceElement) :
  e ∈ getBindingElements id sm <->
  exists k, bound_to (_bindings sm) id k /\ pickById k sm = Some e.
Proof.
  unfold getBindingElements, bound_to.
  destruct (_bindings sm !! id) as [s |] eqn:Hs.
  - case_bool_decide as Hlen.
    + apply nil_length_inv in Hlen. subst s. split.
      * intros []%elem_of_nil.
      * intros [k [[s [[= <-] []%elem_of_nil]] _]].
    + rewrite elem_of_resolve. split.
      * intros [k [Hk He]]. exists k. split; [now exists s | exact He].
      * intros [k [[s' [[= <-] Hk]] He]]. now exists k.
  - split.
    + intros []%elem_of_nil.
    + intros [k [[s [[=] _]] _]].
Qed.

(** C5. In every manager a run can reach, [getBindingElements] is symmetric
    and drops dangling ids. For every live connector [c] and every endpoint
    [t] it was mounted with (its start or its end element),
    [getBindingElements(c)] includes the wrapper of [t] whenever [t] is
    live, and [getBindingElements(t)] includes the wrapper of [c]. For every
    id, [getBindingElements(id)] returns only wrappers that are in the
    cache, and returns [[]] when none of the ids bound to it is live. *)
Theorem getBindingElements_symmetric (sm : SurfaceManager R) :
  reachable sm ->
  (forall (c : string) (connector : SurfaceElement) (t : string),
     pickById c sm = Some connector ->
     elementClass connector = ConnectorElement ->
     startElement connector = Some t \/ endElement connector = Some t ->
     (forall wrapper,
        pickById t sm = Some wrapper -> wrapper ∈ getBindingElements c sm) /\
     connector ∈ getBindingElements t sm) /\
  (forall (id : string) (e : SurfaceElement),
     e ∈ getBindingElements id sm -> exists k, pickById k sm = Some e) /\
  (forall id : string,
     (forall k, bound_to (_bindings sm) id k -> pickById k sm = None) ->
     getBindingElements id sm = []).
Proof.
  intros Hreach.
  destruct (reachable_bindings_invariant sm Hreach) as [_ Hbound].
  split; [| split].
  - intros c connector t Hc Hclass Hend.
    destruct (Hbound _ _ _ Hc Hclass Hend) as [Hct Htc]. split.
    + intros wrapper Ht. apply elem_of_getBindingElements. now exists t.
    + apply elem_of_getBindingElements. now exists c.
  - intros id e [k [_ Hk]]%elem_of_getBindingElements. now exists k.
  - intros id Hdangling.
    destruct (getBindingElements id sm) as [| e l] eqn:Hlist; [reflexivity |].
    assert (He : e ∈ getBindingElements id sm)
      by (rewrite Hlist; apply elem_of_cons; now left).
    apply elem_of_getBindingElements in He as [k [Hk He]].
    rewrite (Hdangling k Hk) in He. discriminate.
Qed.

(** C2, as amended. The binding graph is not changed by a delete
    notification: processing the delete of a live element (a connector or
    not) unmounts its wrapper and evicts it from the cache, and leaves every
    entry of the binding graph in place, the entries that name the evicted
    id included; no later change batch removes an entry either, whatever
    was written to the container in between. [getBindingElements]
    resolves the bound ids through the cache, so after the eviction no
    query returns a wrapper for the evicted id. *)
Theorem delete_keeps_bindings (event : YMapEvent) (id : string) (w : World R)
  (element : SurfaceElement) :
  changes_keys event !! id = Some ActionDelete ->
  pickById id (manager w) = Some element ->
  exists w',
    onKey event id w = (w', Normal tt) /\
    _renderer (manager w') = unmount element (_renderer (manager w)) /\
    pickById id (manager w') = None /\
    _bindings (manager w') = _bindings (manager w) /\
    (forall a t later w'',
       bound_to (_bindings (manager w)) a t ->
       manager w'' = manager w' ->
       bound_to (_bindings (manager (_onYContainer later w'').1)) a t) /\
    (forall a t later w'',
       bound_to (_bindings (manager w'')) a t ->
       bound_to (_bindings (manager (_onYContainer later w'').1)) a t) /\
    (forall id' e,
       e ∈ getBindingElements id' (manager w') ->
       exists k, k <> id /\ pickById k (manager w') = Some e).
Proof.
  intros Hdelete Hget. unfold pickById in Hget.
  eexists. split; [exact (onKey_delete _ _ _ _ Hdelete Hget) |]. simpl.
  split; [reflexivity |].
  assert (Hgone : pickById id (evict element id (manager w)) = None)
    by (unfold pickById, evict; simpl; apply lookup_delete_eq).
  split; [exact Hgone |]. split; [reflexivity |]. split; [| split].
  - intros a t later w'' Hbound Hw''.
    apply (handler_preserves (fun sm => bound_to (_bindings sm) a t)).
    + intros id0 sm sm' Hsm Heff. exact (entry_effect_bound_to _ _ _ _ _ Hsm Heff).
    + rewrite Hw''. exact Hbound.
  - intros a t later w'' Hbound.
    apply (handler_preserves (fun sm => bound_to (_bindings sm) a t)).
    + intros id0 sm sm' Hsm Heff. exact (entry_effect_bound_to _ _ _ _ _ Hsm Heff).
    + exact Hbound.
  - intros id' e [k [_ Hk]]%elem_of_getBindingElements.
    exists k. split; [| exact Hk]. intros ->. congruence.
Qed.

End Bindings.

(** ** Picking *)

Section LastHit.
Context {A : Type} (p : A -> bool).

Lemma last_filter_None (l : list A) :
  last (List.filter p l) = None <-> forall e, e ∈ l -> p e = false.
Proof.
  rewrite last_None. induction l as [| a l IH]; simpl.
  - split; [intros _ e []%elem_of_nil | reflexivity].
  - destruct (p a) eqn:Ha.
    + split; [discriminate |]. intros Hall.
      rewrite (Hall a) in Ha by (apply elem_of_cons; now left). discriminate.
    + rewrite IH. split.
      * intros Hall e [-> | He]%elem_of_cons; auto.
      * intros Hall e He. apply Hall, elem_of_cons. now right.
Qed.

Lemma last_filter_Some_split (l : list A) (top : A) :
  last (List.filter p l) = Some top ->
  exists before after,
    l = (before ++ top :: after)%list /\
    p top = true /\
    forall e, e ∈ after -> p e = false.
Proof.
  induction l as [| a l IH] using rev_ind; simpl.
  - discriminate.
  - rewrite List.filter_app. simpl. destruct (p a) eqn:Ha.
    + rewrite last_snoc. intros [= ->].
      exists l, []. split; [reflexivity |]. split; [exact Ha |].
      intros e []%elem_of_nil.
    + rewrite app_nil_r. intros Hlast.
      destruct (IH Hlast) as (before & after & -> & Htop & Hafter).
      exists before, (after ++ [a])%list.
      split; [now rewrite <- app_assoc |]. split; [exact Htop |].
      intros e [He | ->%list_elem_of_singleton]%elem_of_app; auto.
Qed.

End LastHit.

Section Picking.
Context {R O : Type} `{!RendererOps R} `{!ElementTypes O} `{!KeyGenerator}.

(** [pickTop(x, y)] returns the last of the candidates of the spatial
    index whose precise hit test passes at [(x, y)], and [null] when no
    candidate's hit test passes there. When the candidates are in ascending
    order of their keys, that element has the highest order key among the
    candidates whose hit test passes. *)
Lemma pickTop_last_hit (x y : float) (sm : SurfaceManager R) :
  (pickTop x y sm = None <->
   forall e, e ∈ candidates_at x y sm -> hitTest e x y None = false) /\
  (forall top,
     pickTop x y sm = Some top ->
     (exists before after,
        candidates_at x y sm = (before ++ top :: after)%list /\
        hitTest top x y None = true /\
        forall e, e ∈ after -> hitTest e x y None = false) /\
     (ascending (candidates_at x y sm) ->
      forall e,
        e ∈ candidates_at x y sm -> hitTest e x y None = true ->
        el_index e ≼ el_index top)).
Proof.
  unfold pickTop, pickByPoint. fold (candidates_at x y sm). cbn zeta. split.
  - apply last_filter_None.
  - intros top Hlast.
    destruct (last_filter_Some_split _ _ _ Hlast)
      as (before & after & Hsplit & Htop & Hafter).
    split; [now exists before, after |].
    intros Hsorted e He Hhit. rewrite Hsplit in He, Hsorted.
    assert (Htrans : Transitive (fun a b => el_index a ≼ el_index b))
      by (intros a b c; apply key_le_trans).
    apply Sorted_StronglySorted in Hsorted; [| exact Htrans].
    apply elem_of_app in He as [He | [-> | He]%elem_of_cons].
    + apply (StronglySorted_app_1_elem_of _ _ _ e top Hsorted He).
      apply elem_of_cons. now left.
    + apply key_le_refl.
    + rewrite (Hafter e He) in Hhit. discriminate.
Qed.

(** C6. Under the contract of the spatial index (its candidates for the
    probe bound of the point arrive in ascending order of their keys, are
    live elements, and include every live element whose hit test passes at
    the point), [pickTop(x, y)] returns the element with the highest order
    key among all live elements whose precise hit test passes at [(x, y)],
    and returns [null] exactly when no live element's hit test passes
    there. *)
Theorem pickTop_highest_key (x y : float) (sm : SurfaceManager R) :
  search_contract x y sm ->
  (pickTop x y sm = None <->
   forall id e, pickById id sm = Some e -> hitTest e x y None = false) /\
  (forall top,
     pickTop x y sm = Some top ->
     pickById (el_id top) sm = Some top /\
     hitTest top x y None = true /\
     forall id e,
       pickById id sm = Some e -> hitTest e x y None = true ->
       el_index e ≼ el_index top).
Proof.
  intros (Hsorted & Hlive & Hcovers).
  destruct (pickTop_last_hit x y sm) as [Hnone Hsome]. split.
  - rewrite Hnone. split.
    + intros Hmiss id e He.
      destruct (hitTest e x y None) eqn:Hhit; [| reflexivity].
      pose proof (Hmiss e (Hcovers id e He Hhit)) as Hfalse. congruence.
    + intros Hmiss e He. exact (Hmiss _ e (Hlive e He)).
  - intros top Htop.
    destruct (Hsome top Htop)
      as [(before & after & Hsplit & Hhit & _) Hhighest].
    split; [| split; [exact Hhit |]].
    + apply Hlive. rewrite Hsplit. apply elem_of_app. right.
      apply elem_of_cons. now left.
    + intros id e He Hhits.
      exact (Hhighest Hsorted e (Hcovers id e He Hhits) Hhits).
Qed.

End Picking.

(** ** Sequences of [addElement] calls *)

Section AddElement.
Context {R O : Type} `{!RendererOps R} `{!ElementTypes O} `{!KeyGenerator}.

(** One call with a fresh id, observed. *)
Lemma addElement_observed_fresh (id : string) (seed : float) (type : string)
  (properties : YMap) (w : World R) :
  key_after_contract ->
  yc_has id (_yContainer (manager w)) = false ->
  is_Some (ElementCtors (record_type type properties)) ->
  exists w',
    addElement_observed id seed type properties w = (w', Normal id) /\
    assigned_key id (manager w') =
      generateKeyBetween (max (indexes (manager w))) null /\
    max (indexes (manager w')) =
      generateKeyBetween (max (indexes (manager w))) null /\
    exists yMap,
      _yContainer (manager w') = yc_set id yMap (_yContainer (manager w)).
Proof.
  intros Hafter Hfresh [cls Hcls].
  set (key := generateKeyBetween (max (indexes (manager w))) null).
  set (yMap := <["seed" := VNumber seed]>
                 (<["index" := VString key]>
                    (<["id" := VString id]>
                       (properties ∪ ElementDefaultProps type))) : YMap).
  set (w1 := with_manager (set_yContainer (yc_set id yMap) (manager w)) w).
  assert (Hadd : addElement id seed type properties w = (w1, Normal id)).
  { unfold addElement. munfold. simpl. now rewrite copy_props_id. }
  assert (Hevent :
    changes_keys (event_of_set id (_yContainer (manager w))) !! id =
    Some ActionAdd).
  { unfold event_of_set. simpl. rewrite Hfresh. apply lookup_singleton_eq. }
  assert (Hget : yc_get id (_yContainer (manager w1)) = Some yMap)
    by apply yc_get_set_eq.
  assert (Htype : as_string (yMap !! "type") = record_type type properties).
  { unfold yMap, record_type. now rewrite !lookup_insert_ne by discriminate. }
  assert (Hindex : as_string (yMap !! "index") = key).
  { unfold yMap. now rewrite lookup_insert_ne, lookup_insert_eq by discriminate. }
  rewrite <- Htype in Hcls.
  pose proof (onKey_add _ _ _ _ _ Hevent Hget Hcls) as Hkey.
  eexists. split; [| split; [| split]].
  - unfold addElement_observed. munfold. rewrite Hadd.
    rewrite (onYContainer_single _ id) by (simpl; eauto).
    rewrite Hkey. reflexivity.
  - unfold assigned_key. simpl. now rewrite yc_get_set_eq.
  - simpl. unfold el_index, expand_max. simpl. rewrite Hindex.
    specialize (Hafter (max (indexes (manager w)))). fold key in Hafter.
    unfold Key.lt in Hafter. now rewrite Hafter.
  - now exists yMap.
Qed.

(** C3. For any sequence of [addElement] calls on one manager, made with
    fresh ids and types the registry knows, and with no other change of the
    container in between, under a generator that returns a key after the
    one it is given: every call completes; the order keys the calls assign
    are strictly increasing in call order (and all lie after the bound
    [indexes.max] the sequence started from); and after each call, once its
    notification is processed, [indexes.max] is the key that call
    assigned. *)
Theorem addElement_keys_increase (calls : list AddCall) (w : World R) :
  key_after_contract ->
  NoDup (call_id <$> calls) ->
  (forall c, c ∈ calls -> yc_has (call_id c) (_yContainer (manager w)) = false) ->
  (forall c, c ∈ calls ->
     is_Some (ElementCtors (record_type (call_type c) (call_properties c)))) ->
  exists w' log,
    addElements calls w = (w', Normal log) /\
    length log = length calls /\
    (forall i key max_after,
       log !! i = Some (key, max_after) -> max_after = key) /\
    (forall i j ki kj,
       log !! i = Some ki -> log !! j = Some kj -> (i < j)%nat ->
       ki.1 ≺ kj.1) /\
    (forall i k, log !! i = Some k -> max (indexes (manager w)) ≺ k.1).
Proof.
  intros Hafter. revert w.
  induction calls as [| c calls IH]; intros w Hnodup Hfresh Hctor.
  - exists w, []. split; [reflexivity |]. split; [reflexivity |].
    split; [| split]; intros; simplify_eq.
  - apply NoDup_cons in Hnodup as [Hc Hnodup].
    destruct (addElement_observed_fresh (call_id c) (call_seed c)
                (call_type c) (call_properties c) w Hafter)
      as (w1 & Hrun & Hkey & Hmax & yMap & Hstore).
    { apply Hfresh, elem_of_cons. now left. }
    { apply Hctor, elem_of_cons. now left. }
    destruct (IH w1 Hnodup) as (w' & log & Hrest & Hlen & Hlog & Hinc & Hlow).
    { intros c' Hc'. rewrite Hstore, yc_has_set_ne.
      - apply Hfresh, elem_of_cons. now right.
      - intros Heq. apply Hc. rewrite Heq. apply list_elem_of_fmap.
        now exists c'. }
    { intros c' Hc'. apply Hctor, elem_of_cons. now right. }
    set (key := generateKeyBetween (max (indexes (manager w))) null) in *.
    exists w', ((key, key) :: log).
    assert (Hfirst : max (indexes (manager w)) ≺ key) by apply Hafter.
    split; [| split; [| split; [| split]]].
    + cbn [addElements]. munfold. rewrite Hrun, Hrest, Hkey, Hmax.
      reflexivity.
    + simpl. now rewrite Hlen.
    + intros [| i] k m; simpl.
      * now intros [= <- <-].
      * apply Hlog.
    + intros [| i] [| j] ki kj Hi Hj Hij; simpl in *; try lia.
      * injection Hi as <-. simpl. rewrite <- Hmax. exact (Hlow _ _ Hj).
      * apply (Hinc i j); [assumption | assumption | lia].
    + intros [| i] k; simpl.
      * now intros [= <-].
      * intros Hk. eapply key_lt_trans; [exact Hfirst |].
        rewrite <- Hmax. exact (Hlow _ _ Hk).
Qed.

End AddElement.

(** ** Bulk reassignment of order keys *)

Section UpdateIndexes.
Context {R O : Type} `{!RendererOps R} `{!ElementTypes O} `{!KeyGenerator}.

Lemma after_writes_nil (w : World R) : after_writes [] w = w.
Proof.
  destruct w as [[r c els b i] cons log]. unfold after_writes. simpl.
  now rewrite app_nil_r.
Qed.

Lemma index_write_S (keys : list string) (i : nat) (e : SurfaceElement)
  (elements : list SurfaceElement) (j : nat) :
  index_write keys i (e :: elements) (S j) = index_write keys (S i) elements j.
Proof. unfold index_write. simpl. now rewrite Nat.add_succ_r. Qed.

Lemma index_writes_other (keys : list string) (i : nat) (id : string)
  (elements : list SurfaceElement) (positions : list nat)
  (writes : list DocEvent) :
  Forall2 (fun j d => index_write keys i elements j = Some d) positions writes ->
  (forall j e, elements !! j = Some e -> el_id e <> id) ->
  Forall (fun d => forall id' key v, d = FieldSet id' key v -> id' <> id)
    writes.
Proof.
  intros Hall Hother. induction Hall as [| j d positions writes Hd _ IH].
  - constructor.
  - constructor; [| exact IH]. intros id' key v ->.
    unfold index_write in Hd. destruct (elements !! j) as [e |] eqn:He;
      [| discriminate].
    injection Hd as <- _ _. exact (Hother _ _ He).
Qed.

Lemma updateIndexes_loop_run (keys : list string)
  (elements : list SurfaceElement) :
  forall (i : nat) (w : World R),
    Forall (fun e => is_Some (yc_get (el_id e) (_yContainer (manager w))))
      elements ->
    exists (positions : list nat) (writes : list DocEvent),
      updateIndexes_loop keys i elements w = (after_writes writes w, Normal tt) /\
      StronglySorted lt positions /\
      Forall2 (fun j d => index_write keys i elements j = Some d)
        positions writes /\
      (forall k j e,
         positions !! k = Some j -> elements !! j = Some e ->
         strict_eq_key
           (current_index (el_id e)
              (replay (take k writes) (_yContainer (manager w))))
           (keys !! (i + j)%nat) = false) /\
      (forall j e,
         elements !! j = Some e ->
         (forall j' e',
            (j < j')%nat -> elements !! j' = Some e' -> el_id e' <> el_id e) ->
         strict_eq_key
           (current_index (el_id e) (replay writes (_yContainer (manager w))))
           (keys !! (i + j)%nat) = true).
Proof.
  induction elements as [| e elements IH]; intros i w Hstore.
  - exists [], []. rewrite after_writes_nil.
    split; [reflexivity |]. split; [constructor |]. split; [constructor |].
    split; intros; simplify_eq.
  - apply Forall_cons in Hstore as [[m Hm] Hstore].
    cbn [updateIndexes_loop]. munfold. simpl. rewrite Hm. simpl.
    destruct (strict_eq_key (ymap_get "index" m) (keys !! i)) eqn:Heq.
    + destruct (IH (S i) w Hstore)
        as (positions & writes & Hrun & Hsorted & Hwrites & Hdiffer & Hfinal).
      exists (S <$> positions), writes.
      split; [exact Hrun |]. split; [| split; [| split]].
      * apply (StronglySorted_fmap _ lt lt); [| exact Hsorted]. intros a b. lia.
      * apply Forall2_fmap_l. eapply Forall2_impl; [exact Hwrites |].
        intros j d Hd. simpl. now rewrite index_write_S.
      * intros k j e0. rewrite list_lookup_fmap.
        destruct (positions !! k) as [j' |] eqn:Hk; [| discriminate].
        simpl. intros [= <-] He0. rewrite Nat.add_succ_r.
        exact (Hdiffer k j' e0 Hk He0).
      * intros [| j] e0 He0 Hlast; simpl in He0.
        -- injection He0 as <-. rewrite Nat.add_0_r.
           unfold current_index. rewrite replay_other, Hm; [exact Heq |].
           eapply index_writes_other; [exact Hwrites |].
           intros j e' He'. apply (Hlast (S j)); [lia | exact He'].
        -- rewrite Nat.add_succ_r. apply (Hfinal j e0 He0).
           intros j' e' Hj' He'. apply (Hlast (S j')); [lia | exact He'].
    + set (d0 := FieldSet (el_id e) "index" (of_key (keys !! i))).
      set (w1 := mkWorld
                   (set_yContainer
                      (yc_set_field (el_id e) "index" (of_key (keys !! i)))
                      (manager w))
                   (console w) (doc_log w ++ [d0])).
      destruct (IH (S i) w1)
        as (positions & writes & Hrun & Hsorted & Hwrites & Hdiffer & Hfinal).
      { eapply Forall_impl; [exact Hstore |]. intros e' He'. simpl.
        now apply yc_set_field_is_Some. }
      exists (0%nat :: (S <$> positions)), (d0 :: writes).
      split; [| split; [| split; [| split]]].
      * unfold yElement_set. munfold. simpl. fold d0. fold w1. rewrite Hrun.
        f_equal. unfold after_writes. simpl. now rewrite <- app_assoc.
      * constructor.
        -- apply (StronglySorted_fmap _ lt lt); [| exact Hsorted]. intros a b. lia.
        -- apply Forall_fmap, Forall_forall. intros j _. simpl. lia.
      * constructor.
        -- unfold index_write. simpl. now rewrite Nat.add_0_r.
        -- apply Forall2_fmap_l. eapply Forall2_impl; [exact Hwrites |].
           intros j d Hd. simpl. now rewrite index_write_S.
      * intros [| k] j e0; simpl.
        -- intros [= <-] [= <-]. rewrite Nat.add_0_r.
           unfold current_index, replay. simpl. now rewrite Hm.
        -- rewrite list_lookup_fmap.
           destruct (positions !! k) as [j' |] eqn:Hk; [| discriminate].
           simpl. intros [= <-] He0. rewrite Nat.add_succ_r.
           exact (Hdiffer k j' e0 Hk He0).
      * intros [| j] e0 He0 Hlast; simpl in He0.
        -- injection He0 as <-. rewrite Nat.add_0_r.
           change (replay (d0 :: writes) (_yContainer (manager w)))
             with (replay writes (_yContainer (manager w1))).
           unfold current_index. rewrite replay_other.
           ++ fold (current_index (el_id e) (_yContainer (manager w1))).
              simpl. rewrite current_index_set_field by eauto.
              apply strict_eq_key_of_key.
           ++ eapply index_writes_other; [exact Hwrites |].
              intros j e' He'. apply (Hlast (S j)); [lia | exact He'].
        -- rewrite Nat.add_succ_r.
           change (replay (d0 :: writes) (_yContainer (manager w)))
             with (replay writes (_yContainer (manager w1))).
           apply (Hfinal j e0 He0).
           intros j' e' Hj' He'. apply (Hlast (S j')); [lia | exact He'].
Qed.

(** C7. [updateIndexes(keys, elements, callback)], for elements that have
    their records in the container, makes all its writes inside one
    transaction: the document sees [TransactBegin], the writes of the
    [index] field, one call of [callback(keys)], and [TransactEnd], in this
    order; the callback runs on the manager as the writes left it, and the
    transaction is closed whether the callback returns or throws. The
    writes are made at strictly increasing positions, the write at position
    [j] being that of [keys[j]] to the record of [elements[j]]; a write is
    made only where the key differs from the index the record has at that
    moment; and once the loop is over the record of [elements[j]] has the
    index [keys[j]] (for the last position at which that element
    stands). *)
Theorem updateIndexes_transaction (keys : list string)
  (elements : list SurfaceElement) (callback : Callback (R := R))
  (w : World R) :
  Forall (fun e => is_Some (yc_get (el_id e) (_yContainer (manager w))))
    elements ->
  exists (positions : list nat) (writes : list DocEvent),
    let c := _yContainer (manager w) in
    let written := set_yContainer (replay writes) (manager w) in
    updateIndexes keys elements callback w =
      (mkWorld (callback keys written).1 (console w)
         (doc_log w ++
          [TransactBegin] ++ writes ++ [CallbackCall keys; TransactEnd]),
       (callback keys written).2) /\
    StronglySorted lt positions /\
    Forall2 (fun j d => index_write keys 0 elements j = Some d)
      positions writes /\
    (forall k j e,
       positions !! k = Some j -> elements !! j = Some e ->
       strict_eq_key (current_index (el_id e) (replay (take k writes) c))
         (keys !! j) = false) /\
    (forall j e,
       elements !! j = Some e ->
       (forall j' e',
          (j < j')%nat -> elements !! j' = Some e' -> el_id e' <> el_id e) ->
       strict_eq_key (current_index (el_id e) (replay writes c)) (keys !! j)
       = true).
Proof.
  intros Hstore.
  destruct (updateIndexes_loop_run keys elements 0
              (mkWorld (manager w) (console w) (doc_log w ++ [TransactBegin])))
    as (positions & writes & Hrun & Hsorted & Hwrites & Hdiffer & Hfinal);
    [exact Hstore |].
  exists positions, writes. cbn zeta.
  split; [| split; [exact Hsorted | split; [exact Hwrites | split]]].
  - unfold updateIndexes, _transact, try_finally, call. munfold. simpl.
    rewrite Hrun. unfold after_writes. simpl.
    destruct (callback keys (set_yContainer (replay writes) (manager w)))
      as [sm2 r]. simpl.
    rewrite <- !app_assoc. simpl. now destruct r.
  - exact Hdiffer.
  - exact Hfinal.
Qed.

End UpdateIndexes.

(** ** Removing an element *)

Section RemoveElement.
Context {R O : Type} `{!RendererOps R} `{!ElementTypes O} `{!KeyGenerator}.


Lemma regenerate_min_max (index : Value) (i : Indexes) :
  max (regenerate_min index i) = max i.
Proof.
  unfold regenerate_min. destruct index as [| s | |]; try reflexivity.
  now destruct (String.eqb _ _).
Qed.



(** X1. The delete branch of the handler, for an entry whose wrapper is
    cached: the wrapper is evicted and [indexes.max] is left as it was;
    [indexes.min] is regenerated exactly when the key of the wrapper, read
    at that moment, equals [indexes.min], which needs the record to be in
    the container still (after [removeElement] it is not). The new [min]
    is then [generateKeyBetween(min, null)]: under a generator that
    returns a key after the one it is given it lies strictly above the old
    [min], not below it. *)
Theorem onKey_delete_regenerates_min (event : YMapEvent) (id : string)
  (element : SurfaceElement) (w : World R) :
  changes_keys event !! id = Some ActionDelete ->
  pickById id (manager w) = Some element ->
  exists w',
    onKey event id w = (w', Normal tt) /\
    pickById id (manager w') = None /\
    max (indexes (manager w')) = max (indexes (manager w)) /\
    (live_index element (_yContainer (manager w)) =
       VString (min (indexes (manager w))) ->
     min (indexes (manager w')) =
       generateKeyBetween (min (indexes (manager w))) null /\
     (key_after_contract ->
      min (indexes (manager w)) ≺ min (indexes (manager w')))) /\
    (live_index element (_yContainer (manager w)) <>
       VString (min (indexes (manager w))) ->
     min (indexes (manager w')) = min (indexes (manager w))).
Proof.
  intros Hdelete Hget. unfold pickById in Hget.
  eexists. split; [exact (onKey_delete _ _ _ _ Hdelete Hget) |]. simpl.
  split; [unfold pickById; simpl; apply lookup_delete_eq |].
  split; [apply regenerate_min_max |].
  unfold regenerate_min. split.
  - intros ->. rewrite String.eqb_refl. simpl.
    split; [reflexivity |]. intros Hafter. apply Hafter.
  - intros Hother.
    destruct (live_index element (_yContainer (manager w))) as [| index | |];
      try reflexivity.
    destruct (String.eqb_spec index (min (indexes (manager w)))) as [-> | _];
      [now destruct Hother | reflexivity].
Qed.

End RemoveElement.

(** ** The reference collaborators *)

Section Reference.
Import Ref.

Lemma next_digit_lt (c d : ascii) :
  next_digit c = Some d -> Ascii.compare c d = Lt.
Proof.
  destruct c as [[] [] [] [] [] [] [] []]; vm_compute; intros Hd;
    try discriminate; injection Hd as <-; reflexivity.
Qed.

Lemma ascii_compare_refl (c : ascii) : Ascii.compare c c = Eq.
Proof. unfold Ascii.compare. apply N.compare_refl. Qed.

Lemma key_after_lt (a : string) : a ≺ key_after a.
Proof.
  apply key_lt_compare. induction a as [| c a IH].
  - reflexivity.
  - destruct a as [| c' a]; cbn [key_after].
    + destruct (next_digit c) as [d |] eqn:Hd; simpl.
      * now rewrite (next_digit_lt _ _ Hd).
      * now rewrite ascii_compare_refl.
    + cbn [String.compare]. rewrite ascii_compare_refl. exact IH.
Qed.

(** The reference generator meets the contract. *)
Lemma ref_key_after_contract : key_after_contract.
Proof. intros a. apply key_after_lt. Qed.

Lemma key_not_le_lt (a b : string) : String.leb a b = false -> b ≺ a.
Proof.
  unfold String.leb. rewrite key_lt_compare, (String.compare_antisym b a).
  destruct (String.compare a b); simpl; congruence.
Qed.

Lemma insert_by_index_ascending (e : SurfaceElement)
  (l : list SurfaceElement) :
  ascending l -> ascending (insert_by_index e l).
Proof.
  unfold ascending. induction l as [| a l IH]; intros Hsorted; simpl.
  - repeat constructor.
  - destruct (String.leb (el_index e) (el_index a)) eqn:Hle.
    + constructor; [exact Hsorted |]. constructor. exact Hle.
    + apply Sorted_inv in Hsorted as [Hsorted Hhead].
      constructor; [now apply IH |].
      destruct l as [| b l]; simpl.
      * constructor. now apply key_lt_le, key_not_le_lt.
      * destruct (String.leb (el_index e) (el_index b)).
        -- constructor. now apply key_lt_le, key_not_le_lt.
        -- constructor. now apply HdRel_inv in Hhead.
Qed.

(** The reference renderer returns its candidates in ascending order of
    their keys. *)
Lemma ref_search_ascending (r : Renderer) (bound : IBound) :
  ascending (gridManager_search r bound).
Proof.
  simpl. unfold sort_by_index.
  induction (List.filter _ r) as [| e l IH]; simpl.
  - constructor.
  - now apply insert_by_index_ascending.
Qed.

End Reference.

(** * Further properties *)

(** ** The shape of the binding graph *)

Section GraphShape.

Lemma elem_of_set_add (x y : string) (s : list string) :
  y ∈ set_add x s <-> y ∈ s \/ y = x.
Proof.
  unfold set_add. case_bool_decide as Hx.
  - split; [now left |]. intros [Hy | ->]; assumption.
  - rewrite elem_of_app, list_elem_of_singleton. reflexivity.
Qed.

Lemma set_add_NoDup (x : string) (s : list string) :
  NoDup s -> NoDup (set_add x s).
Proof.
  intros Hs. unfold set_add. case_bool_decide as Hx; [exact Hs |].
  apply NoDup_app. split; [exact Hs |]. split.
  - intros y Hy ->%list_elem_of_singleton. contradiction.
  - apply NoDup_singleton.
Qed.

(** [_addBinding(id0, id1)] adds the entry [id0 → id1] and no other. *)
Lemma bound_to_addBinding (id0 id1 a t : string)
  (b : gmap string (list string)) :
  bound_to (_addBinding id0 id1 b) a t <->
  bound_to b a t \/ (a = id0 /\ t = id1).
Proof.
  split.
  - unfold _addBinding, bound_to. case_bool_decide as Hsome.
    + destruct Hsome as [s0 Hs0]. rewrite Hs0.
      destruct (decide (id0 = a)) as [<- | Hne].
      * rewrite lookup_insert_eq. intros [s [[= <-] Ht]].
        apply elem_of_set_add in Ht as [Ht | ->]; [left; now exists s0 | now right].
      * rewrite lookup_insert_ne by exact Hne. now left.
    + rewrite lookup_insert_eq.
      destruct (decide (id0 = a)) as [<- | Hne].
      * rewrite lookup_insert_eq. intros [s [[= <-] Ht]].
        apply elem_of_set_add in Ht as [[]%elem_of_nil | ->]. now right.
      * rewrite !lookup_insert_ne by exact Hne. now left.
  - intros [Hb | [-> ->]].
    + now apply _addBinding_mono.
    + apply _addBinding_here.
Qed.

Lemma _addBinding_nodup (id0 id1 : string) (b : gmap string (list string)) :
  bindings_nodup b -> bindings_nodup (_addBinding id0 id1 b).
Proof.
  intros Hb a s. unfold _addBinding. case_bool_decide as Hsome.
  - destruct Hsome as [s0 Hs0]. rewrite Hs0.
    destruct (decide (id0 = a)) as [<- | Hne].
    + rewrite lookup_insert_eq. intros [= <-].
      apply set_add_NoDup. exact (Hb _ _ Hs0).
    + rewrite lookup_insert_ne by exact Hne. apply Hb.
  - rewrite lookup_insert_eq.
    destruct (decide (id0 = a)) as [<- | Hne].
    + rewrite lookup_insert_eq. intros [= <-].
      apply set_add_NoDup, NoDup_nil_2.
    + rewrite !lookup_insert_ne by exact Hne. apply Hb.
Qed.

(** The two calls [_updateBindings] makes for one endpoint keep the graph
    symmetric. *)
Lemma addBinding_pair_symmetric (id t : string)
  (b : gmap string (list string)) :
  bindings_symmetric b ->
  bindings_symmetric (_addBinding id t (_addBinding t id b)).
Proof.
  intros Hb x y. rewrite !bound_to_addBinding.
  intros [[Hxy | [-> ->]] | [-> ->]]; auto.
Qed.

Lemma _updateBindings_symmetric (element : SurfaceElement)
  (b : gmap string (list string)) :
  bindings_symmetric b -> bindings_symmetric (_updateBindings element b).
Proof.
  intros Hb. unfold _updateBindings.
  destruct (elementClass element); [| exact Hb].
  destruct (startElement element), (endElement element);
    auto using addBinding_pair_symmetric.
Qed.

Lemma _updateBindings_nodup (element : SurfaceElement)
  (b : gmap string (list string)) :
  bindings_nodup b -> bindings_nodup (_updateBindings element b).
Proof.
  intros Hb. unfold _updateBindings.
  destruct (elementClass element); [| exact Hb].
  destruct (startElement element), (endElement element);
    auto using _addBinding_nodup.
Qed.

End GraphShape.

Section ReachableGraph.
Context {R O : Type} `{!RendererOps R} `{!ElementTypes O} `{!KeyGenerator}.

(** A property of the binding graph that [_updateBindings] keeps holds in
    every manager a run can reach. *)
Lemma reachable_bindings (P : gmap string (list string) -> Prop) :
  P ∅ ->
  (forall element b, P b -> P (_updateBindings element b)) ->
  forall sm : SurfaceManager R, reachable sm -> P (_bindings sm).
Proof.
  intros Hempty Hstep sm.
  induction 1 as [yContainer w Hnew | event w _ IH | f sm _ IH].
  - replace w with (SurfaceManager_new yContainer).1 by now rewrite Hnew.
    apply (scan_preserves (fun sm => P (_bindings sm))).
    + intros element sm Hsm. simpl. now apply Hstep.
    + exact Hempty.
  - apply (handler_preserves (fun sm => P (_bindings sm))); [| exact IH].
    intros id sm sm' Hsm [| yElement cls _ _ | element _]; simpl; auto.
  - exact IH.
Qed.

(** X2. In every manager a run can reach, the binding graph is symmetric:
    it has the entry [a → t] exactly when it has the entry [t → a]. *)
Theorem bindings_always_symmetric (sm : SurfaceManager R) :
  reachable sm ->
  forall a t, bound_to (_bindings sm) a t <-> bound_to (_bindings sm) t a.
Proof.
  intros Hreach.
  assert (Hsym : bindings_symmetric (_bindings sm)).
  { apply (reachable_bindings bindings_symmetric); [| | exact Hreach].
    - intros a t [s [Hs _]]. rewrite lookup_empty in Hs. discriminate.
    - apply _updateBindings_symmetric. }
  intros a t. split; apply Hsym.
Qed.

Lemma resolve_NoDup (f : string -> option SurfaceElement) (s : list string) :
  NoDup s ->
  (forall k1 k2 e, f k1 = Some e -> f k2 = Some e -> k1 = k2) ->
  NoDup (omap (fun x => x) (map f s)).
Proof.
  intros Hs Hinj. induction Hs as [| k s Hk _ IH]; simpl.
  - apply NoDup_nil_2.
  - destruct (f k) as [e |] eqn:He; [| exact IH].
    apply NoDup_cons. split; [| exact IH].
    intros [k' [Hk' He']]%elem_of_resolve.
    rewrite (Hinj _ _ _ He He') in Hk. contradiction.
Qed.

(** X3. In every manager a run can reach, [getBindingElements(id)] returns
    no wrapper twice. *)
Theorem getBindingElements_NoDup (sm : SurfaceManager R) (id : string) :
  reachable sm -> NoDup (getBindingElements id sm).
Proof.
  intros Hreach.
  assert (Hnodup : bindings_nodup (_bindings sm)).
  { apply (reachable_bindings bindings_nodup); [| | exact Hreach].
    - intros a s Hs. rewrite lookup_empty in Hs. discriminate.
    - apply _updateBindings_nodup. }
  destruct (reachable_bindings_invariant sm Hreach) as [Hkey _].
  unfold getBindingElements.
  destruct (_bindings sm !! id) as [s |] eqn:Hs; [| apply NoDup_nil_2].
  case_bool_decide; [apply NoDup_nil_2 |].
  apply resolve_NoDup; [exact (Hnodup _ _ Hs) |].
  intros k1 k2 e H1 H2.
  rewrite <- (Hkey _ _ H1). exact (Hkey _ _ H2).
Qed.

End ReachableGraph.

(** ** Construction *)

Section Construction.
Context {R O : Type} `{!RendererOps R} `{!ElementTypes O} `{!KeyGenerator}.

Lemma scan_run (l : YContainer) :
  forall w : World R,
    Forall (fun entry => known_type entry.2) l ->
    forEach (fun '(_, yElement) => syncElement yElement) l w =
    (with_manager (scan_manager l (manager w)) w, Normal tt).
Proof.
  induction l as [| [k y] l IH]; intros w Hknown.
  - destruct w as [sm cons log]. reflexivity.
  - apply Forall_cons in Hknown as [[cls Hcls] Hknown]. simpl in Hcls.
    cbn [forEach]. munfold. rewrite (syncElement_run _ _ _ Hcls).
    rewrite IH by exact Hknown. unfold scan_manager. cbn [foldl].
    assert (Hy : wrapper_of y = Some (mkElement y cls))
      by (unfold wrapper_of; now rewrite Hcls).
    rewrite Hy. reflexivity.
Qed.

Lemma scan_stops (before after : YContainer) (k : string) (y : YMap)
  (w : World R) :
  Forall (fun entry => known_type entry.2) before ->
  ~ known_type y ->
  forEach (fun '(_, yElement) => syncElement yElement)
    (before ++ (k, y) :: after) w =
  (with_manager (scan_manager before (manager w)) w, Throw AssertionError).
Proof.
  intros Hknown Hunknown. rewrite forEach_app, scan_run by exact Hknown.
  cbn [forEach]. munfold. rewrite syncElement_no_ctor; [reflexivity |].
  unfold known_type in Hunknown.
  destruct (ElementCtors (as_string (y !! "type"))); [| reflexivity].
  exfalso. apply Hunknown. eauto.
Qed.

Lemma SurfaceManager_new_run (yContainer : YContainer) :
  Forall (fun entry => known_type entry.2) yContainer ->
  SurfaceManager_new yContainer =
  (mkWorld (scan_manager yContainer (initial_manager yContainer)) [] [],
   Normal tt).
Proof.
  intros Hknown. unfold SurfaceManager_new, _syncFromExistingContainer.
  munfold. simpl. now rewrite scan_run.
Qed.

(** A list of records either has only known types, or splits at the first
    record of an unknown type. *)
Lemma first_unknown (l : YContainer) :
  Forall (fun entry => known_type entry.2) l \/
  exists before k y after,
    l = (before ++ (k, y) :: after)%list /\
    Forall (fun entry => known_type entry.2) before /\ ~ known_type y.
Proof.
  induction l as [| [k y] l IH].
  - left. constructor.
  - destruct (ElementCtors (as_string (y !! "type"))) as [cls |] eqn:Hcls.
    + destruct IH as [Hall | (before & k' & y' & after & -> & Hbefore & Hy')].
      * left. constructor; [| exact Hall]. simpl. unfold known_type.
        rewrite Hcls. eauto.
      * right. exists ((k, y) :: before), k', y', after.
        split; [reflexivity |]. split; [| exact Hy'].
        constructor; [| exact Hbefore]. simpl. unfold known_type.
        rewrite Hcls. eauto.
    + right. exists [], k, y, l. split; [reflexivity |].
      split; [constructor |]. unfold known_type. rewrite Hcls.
      intros [? [=]].
Qed.

(** X4. [new SurfaceManager(yContainer)] completes exactly when the
    registry has a constructor for the type of every record of the
    container; otherwise it throws the assertion error of [assertExists],
    at the first record of an unknown type: the records before it are
    mounted and cached, that record and the ones after it are not. *)
Theorem construction_completes_iff (yContainer : YContainer) :
  ((SurfaceManager_new (R := R) yContainer).2 = Normal tt <->
   Forall (fun entry => known_type entry.2) yContainer) /\
  (forall before k y after,
     yContainer = (before ++ (k, y) :: after)%list ->
     Forall (fun entry => known_type entry.2) before ->
     ~ known_type y ->
     (SurfaceManager_new (R := R) yContainer).2 = Throw AssertionError /\
     manager (SurfaceManager_new yContainer).1 =
       scan_manager before (initial_manager yContainer)).
Proof.
  assert (Hstop : forall before k y after,
     yContainer = (before ++ (k, y) :: after)%list ->
     Forall (fun entry => known_type entry.2) before ->
     ~ known_type y ->
     (SurfaceManager_new (R := R) yContainer).2 = Throw AssertionError /\
     manager (SurfaceManager_new yContainer).1 =
       scan_manager before (initial_manager yContainer)).
  { intros before k y after Hsplit Hbefore Hy.
    unfold SurfaceManager_new, _syncFromExistingContainer. munfold. simpl.
    rewrite Hsplit at 1 3. rewrite scan_stops by assumption.
    split; reflexivity. }
  split; [| exact Hstop]. split.
  - intros Hnormal.
    destruct (first_unknown yContainer)
      as [Hall | (before & k & y & after & Hsplit & Hbefore & Hy)];
      [exact Hall |].
    destruct (Hstop _ _ _ _ Hsplit Hbefore Hy) as [Hthrow _]. congruence.
  - intros Hall. now rewrite SurfaceManager_new_run.
Qed.

End Construction.

(** ** Calls of the mutation API and their notifications *)

Section Observed.
Context {R O : Type} `{!RendererOps R} `{!ElementTypes O} `{!KeyGenerator}.

Lemma new_record_id (id : string) (seed : float) (type : string)
  (properties : YMap) (sm : SurfaceManager R) :
  as_string (new_record id seed type properties sm !! "id") = id.
Proof.
  unfold new_record.
  now rewrite lookup_insert_ne, lookup_insert_ne, lookup_insert_eq.
Qed.

Lemma new_record_index (id : string) (seed : float) (type : string)
  (properties : YMap) (sm : SurfaceManager R) :
  as_string (new_record id seed type properties sm !! "index") =
  generateKeyBetween (max (indexes sm)) null.
Proof.
  unfold new_record. now rewrite lookup_insert_ne, lookup_insert_eq.
Qed.

Lemma new_record_type (id : string) (seed : float) (type : string)
  (properties : YMap) (sm : SurfaceManager R) :
  as_string (new_record id seed type properties sm !! "type") =
  record_type type properties.
Proof.
  unfold new_record, record_type. now rewrite !lookup_insert_ne by discriminate.
Qed.

Lemma addElement_run (id : string) (seed : float) (type : string)
  (properties : YMap) (w : World R) :
  addElement id seed type properties w =
  (with_manager
     (set_yContainer
        (yc_set id (new_record id seed type properties (manager w)))
        (manager w)) w,
   Normal id).
Proof. unfold addElement. munfold. simpl. now rewrite copy_props_id. Qed.

Lemma event_of_set_fresh (id : string) (c : YContainer) :
  yc_has id c = false -> changes_keys (event_of_set id c) !! id = Some ActionAdd.
Proof.
  intros Hfresh. unfold event_of_set. simpl. rewrite Hfresh.
  apply lookup_singleton_eq.
Qed.

Lemma event_of_set_present (id : string) (c : YContainer) :
  yc_has id c = true ->
  changes_keys (event_of_set id c) !! id = Some ActionUpdate.
Proof.
  intros Hhas. unfold event_of_set. simpl. rewrite Hhas.
  apply lookup_singleton_eq.
Qed.

(** A fresh id and a known type: the record is stored and its wrapper
    mounted. *)
Lemma addElement_observed_mounts (id : string) (seed : float) (type : string)
  (properties : YMap) (w : World R) (cls : ElementClass) :
  yc_has id (_yContainer (manager w)) = false ->
  ElementCtors (record_type type properties) = Some cls ->
  addElement_observed id seed type properties w =
  (with_manager
     (materialize expand_max
        (mkElement (new_record id seed type properties (manager w)) cls)
        (set_yContainer
           (yc_set id (new_record id seed type properties (manager w)))
           (manager w))) w,
   Normal id).
Proof.
  intros Hfresh Hcls. unfold addElement_observed. munfold.
  rewrite addElement_run.
  rewrite (onYContainer_single _ id);
    [| reflexivity | rewrite event_of_set_fresh by exact Hfresh; eauto].
  rewrite <- new_record_type with (id := id) (seed := seed) (sm := manager w)
    in Hcls.
  rewrite (onKey_add _ id
             (with_manager
                (set_yContainer
                   (yc_set id (new_record id seed type properties (manager w)))
                   (manager w)) w) _ cls
             (event_of_set_fresh _ _ Hfresh) (yc_get_set_eq _ _ _) Hcls).
  reflexivity.
Qed.

(** A fresh id and a type the registry does not know: the record is
    stored, and the handler throws before it mounts anything. *)
Lemma addElement_observed_unknown (id : string) (seed : float) (type : string)
  (properties : YMap) (w : World R) :
  yc_has id (_yContainer (manager w)) = false ->
  ElementCtors (record_type type properties) = None ->
  addElement_observed id seed type properties w =
  (with_manager
     (set_yContainer
        (yc_set id (new_record id seed type properties (manager w)))
        (manager w)) w,
   Throw AssertionError).
Proof.
  intros Hfresh Hcls. unfold addElement_observed. munfold.
  rewrite addElement_run.
  rewrite (onYContainer_single _ id);
    [| reflexivity | rewrite event_of_set_fresh by exact Hfresh; eauto].
  rewrite <- new_record_type with (id := id) (seed := seed) (sm := manager w)
    in Hcls.
  rewrite (onKey_add_no_ctor _ id
             (with_manager
                (set_yContainer
                   (yc_set id (new_record id seed type properties (manager w)))
                   (manager w)) w) _
             (event_of_set_fresh _ _ Hfresh) (yc_get_set_eq _ _ _) Hcls).
  reflexivity.
Qed.

(** An id the container already has: the record is replaced, and the
    notification is an update, which the handler only logs. *)
Lemma addElement_observed_collision (id : string) (seed : float)
  (type : string) (properties : YMap) (w : World R) :
  yc_has id (_yContainer (manager w)) = true ->
  addElement_observed id seed type properties w =
  (mkWorld
     (set_yContainer
        (yc_set id (new_record id seed type properties (manager w)))
        (manager w))
     (console w ++
      [ConsoleError "update event on yElements is not supported"
         (event_of_set id (_yContainer (manager w)))])
     (doc_log w),
   Normal id).
Proof.
  intros Hhas. unfold addElement_observed. munfold.
  rewrite addElement_run.
  rewrite (onYContainer_single _ id);
    [| reflexivity | rewrite event_of_set_present by exact Hhas; eauto].
  rewrite (onKey_update _ _ _ (event_of_set_present _ _ Hhas)).
  reflexivity.
Qed.

Lemma removeElement_run (id : string) (w : World R) :
  removeElement id w =
  (mkWorld (set_yContainer (yc_delete id) (manager w)) (console w)
     ((doc_log w ++ [TransactBegin]) ++ [TransactEnd]),
   Normal tt).
Proof. reflexivity. Qed.

Lemma delete_event_action (id : string) :
  changes_keys
    {| keysChanged := [id]; changes_keys := {[ id := ActionDelete ]} |} !! id =
  Some ActionDelete.
Proof. apply lookup_singleton_eq. Qed.

(** The three ways [removeElement] and its notification can go, by the
    state of the container and of the cache. *)
Lemma removeElement_observed_cases (id : string) (w : World R) :
  let sm := set_yContainer (yc_delete id) (manager w) in
  (yc_has id (_yContainer (manager w)) = false /\
   (removeElement_observed id w).2 = Normal tt /\
   manager (removeElement_observed id w).1 = sm) \/
  (yc_has id (_yContainer (manager w)) = true /\
   _elements (manager w) !! id = None /\
   (removeElement_observed id w).2 = Throw AssertionError /\
   manager (removeElement_observed id w).1 = sm) \/
  (exists element,
     yc_has id (_yContainer (manager w)) = true /\
     _elements (manager w) !! id = Some element /\
     (removeElement_observed id w).2 = Normal tt /\
     manager (removeElement_observed id w).1 = evict element id sm).
Proof.
  intros sm. unfold removeElement_observed. munfold.
  rewrite removeElement_run. unfold event_of_delete. simpl.
  destruct (yc_has id (_yContainer (manager w))) eqn:Hhas.
  - right.
    rewrite (onYContainer_single _ id);
      [| reflexivity | rewrite delete_event_action; eauto].
    destruct (_elements (manager w) !! id) as [element |] eqn:Hget.
    + right. exists element.
      rewrite (onKey_delete _ _ _ element (delete_event_action id))
        by exact Hget.
      repeat split.
    + left.
      rewrite (onKey_delete_no_wrapper _ _ _ (delete_event_action id))
        by exact Hget.
      repeat split.
  - left. repeat split.
Qed.

End Observed.

(** ** The cache and the container *)

Section Mirror.
Context {R O : Type} `{!RendererOps R} `{!ElementTypes O} `{!KeyGenerator}.

Lemma yc_get_None_notin (id : string) (c : YContainer) :
  id ∉ c.*1 -> yc_get id c = None.
Proof.
  induction c as [| [k m] c IH]; simpl; [reflexivity |].
  intros Hnotin. apply not_elem_of_cons in Hnotin as [Hne Hnotin].
  destruct (String.eqb_spec k id); [congruence | auto].
Qed.

Lemma yc_get_Some_elem (id : string) (c : YContainer) (m : YMap) :
  yc_get id c = Some m -> (id, m) ∈ c.
Proof.
  induction c as [| [k m'] c IH]; simpl; [discriminate |].
  destruct (String.eqb_spec k id) as [-> | Hne].
  - intros [= ->]. apply list_elem_of_here.
  - intros Hget. apply list_elem_of_further. auto.
Qed.

Lemma wrapper_of_known (yElement : YMap) :
  known_type yElement -> is_Some (wrapper_of yElement).
Proof.
  intros [cls Hcls]. unfold wrapper_of. rewrite Hcls. simpl. eauto.
Qed.

Lemma scan_manager_cons (k : string) (y : YMap) (l : YContainer)
  (sm : SurfaceManager R) :
  scan_manager ((k, y) :: l) sm =
  scan_manager l
    match wrapper_of y with
    | Some element => materialize expand_bounds element sm
    | None => sm
    end.
Proof. reflexivity. Qed.

Lemma scan_manager_container (l : YContainer) :
  forall sm : SurfaceManager R,
    _yContainer (scan_manager l sm) = _yContainer sm.
Proof.
  induction l as [| [k y] l IH]; intros sm; [reflexivity |].
  rewrite scan_manager_cons.
  rewrite IH. destruct (wrapper_of y); reflexivity.
Qed.

Lemma scan_manager_elements (l : YContainer) :
  forall sm : SurfaceManager R,
    NoDup l.*1 ->
    (forall k yElement,
       (k, yElement) ∈ l -> as_string (yElement !! "id") = k) ->
    forall id,
      _elements (scan_manager l sm) !! id =
      match yc_get id l with
      | Some yElement =>
          match wrapper_of yElement with
          | Some element => Some element
          | None => _elements sm !! id
          end
      | None => _elements sm !! id
      end.
Proof.
  induction l as [| [k y] l IH]; intros sm Hnodup Hid id; [reflexivity |].
  rewrite fmap_cons in Hnodup. apply NoDup_cons in Hnodup as [Hk Hnodup].
  simpl in Hk.
  pose proof (Hid k y (list_elem_of_here _ _)) as Hy.
  assert (Hid' : forall k' y', (k', y') ∈ l -> as_string (y' !! "id") = k')
    by (intros k' y' Hin; apply Hid; now apply list_elem_of_further).
  rewrite scan_manager_cons.
  rewrite (IH _ Hnodup Hid'). cbn [yc_get].
  destruct (String.eqb_spec k id) as [<- | Hne].
  - rewrite (yc_get_None_notin _ _ Hk).
    unfold wrapper_of. destruct (ElementCtors _); simpl; [| reflexivity].
    unfold el_id. simpl. rewrite Hy. apply lookup_insert_eq.
  - assert (Hother :
      _elements
        match wrapper_of y with
        | Some element => materialize expand_bounds element sm
        | None => sm
        end !! id = _elements sm !! id).
    { unfold wrapper_of. destruct (ElementCtors _); simpl; [| reflexivity].
      unfold el_id. simpl. rewrite Hy. now apply lookup_insert_ne. }
    rewrite Hother. reflexivity.
Qed.

Lemma scan_mirrors (yContainer : YContainer) :
  well_formed yContainer ->
  forall id,
    pickById id (scan_manager yContainer (initial_manager (R := R) yContainer)) =
    yc_get id yContainer ≫= wrapper_of.
Proof.
  intros [Hnodup Hwf] id. unfold pickById.
  rewrite scan_manager_elements;
    [| exact Hnodup | intros k y Hin; now apply (Hwf k y)].
  destruct (yc_get id yContainer) as [y |]; simpl; [| apply lookup_empty].
  destruct (wrapper_of y); [reflexivity | apply lookup_empty].
Qed.

Lemma well_formed_known (yContainer : YContainer) :
  well_formed yContainer ->
  Forall (fun entry => known_type entry.2) yContainer.
Proof.
  intros [_ Hwf]. apply Forall_forall. intros [k y] Hin. now apply (Hwf k y).
Qed.

(** X5. After [new SurfaceManager(yContainer)] over a container with one
    entry per id, whose records carry the id they are stored under and have
    types the registry knows, the cache mirrors the container: for every
    id, [pickById(id)] is the wrapper of the record [yContainer.get(id)],
    and is undefined when the container has no such record; so
    [hasElement(id)] holds exactly for the ids [pickById] resolves. *)
Theorem construction_mirrors (yContainer : YContainer) :
  well_formed yContainer ->
  SurfaceManager_new (R := R) yContainer =
    ((SurfaceManager_new yContainer).1, Normal tt) /\
  mirrors (manager (SurfaceManager_new (R := R) yContainer).1) /\
  forall id,
    hasElement id (manager (SurfaceManager_new (R := R) yContainer).1) = true <->
    is_Some (pickById id (manager (SurfaceManager_new yContainer).1)).
Proof.
  intros Hwell.
  rewrite (SurfaceManager_new_run _ (well_formed_known _ Hwell)).
  cbn [fst manager].
  pose proof (scan_mirrors _ Hwell) as Hmirror. destruct Hwell as [_ Hwf].
  split; [reflexivity |]. split.
  - intros id. rewrite scan_manager_container. apply Hmirror.
  - intros id. rewrite Hmirror. unfold hasElement, yc_has.
    rewrite scan_manager_container. simpl.
    destruct (yc_get id yContainer) as [y |] eqn:Hget; simpl.
    + split; [intros _ | reflexivity].
      apply wrapper_of_known, (Hwf id y), yc_get_Some_elem, Hget.
    + split; [discriminate | intros [? [=]]].
Qed.

(** X6. Once the cache mirrors the container, it keeps mirroring it:
    after [addElement] with a fresh id and the processing of its
    notification, whether the handler mounts the new record or throws on
    its type; and after [removeElement(id)] and the processing of its
    notification, for every id. *)
Theorem mirrors_preserved (w : World R) :
  mirrors (manager w) ->
  (forall id seed type properties,
     yc_has id (_yContainer (manager w)) = false ->
     mirrors (manager (addElement_observed id seed type properties w).1)) /\
  (forall id, mirrors (manager (removeElement_observed id w).1)).
Proof.
  intros Hmirror. split.
  - intros id seed type properties Hfresh id'.
    assert (Hnone : _elements (manager w) !! id = None).
    { specialize (Hmirror id). unfold pickById in Hmirror. rewrite Hmirror.
      unfold yc_has in Hfresh.
      destruct (yc_get id (_yContainer (manager w))); [discriminate |].
      reflexivity. }
    destruct (ElementCtors (record_type type properties)) as [cls |] eqn:Hcls.
    + rewrite (addElement_observed_mounts _ _ _ _ _ cls Hfresh Hcls).
      unfold pickById. simpl. unfold el_id. simpl. rewrite new_record_id.
      destruct (decide (id = id')) as [<- | Hne].
      * rewrite lookup_insert_eq, yc_get_set_eq. simpl.
        unfold wrapper_of. rewrite new_record_type, Hcls. reflexivity.
      * rewrite lookup_insert_ne, yc_get_set_ne by exact Hne.
        apply Hmirror.
    + rewrite (addElement_observed_unknown _ _ _ _ _ Hfresh Hcls).
      unfold pickById. simpl.
      destruct (decide (id = id')) as [<- | Hne].
      * rewrite Hnone, yc_get_set_eq. simpl.
        unfold wrapper_of. rewrite new_record_type, Hcls. reflexivity.
      * rewrite yc_get_set_ne by exact Hne. apply Hmirror.
  - intros id id'.
    assert (Hdeleted : forall cache : gmap string SurfaceElement,
      (forall i, cache !! i = yc_get i (_yContainer (manager w)) ≫= wrapper_of) ->
      cache !! id = None ->
      cache !! id' =
      yc_get id' (yc_delete id (_yContainer (manager w))) ≫= wrapper_of).
    { intros cache Hcache Hnone. destruct (decide (id = id')) as [<- | Hne].
      - now rewrite yc_get_delete_eq.
      - rewrite yc_get_delete_ne by exact Hne. apply Hcache. }
    destruct (removeElement_observed_cases id w)
      as [(Hhas & _ & ->) | [(Hhas & Hnone & _ & ->) | (e & Hhas & Hsome & _ & ->)]];
      unfold pickById; simpl.
    + apply Hdeleted; [exact Hmirror |].
      specialize (Hmirror id). unfold pickById in Hmirror. rewrite Hmirror.
      unfold yc_has in Hhas.
      destruct (yc_get id (_yContainer (manager w))); [discriminate |].
      reflexivity.
    + apply Hdeleted; [exact Hmirror | exact Hnone].
    + destruct (decide (id = id')) as [<- | Hne].
      * now rewrite lookup_delete_eq, yc_get_delete_eq.
      * rewrite lookup_delete_ne, yc_get_delete_ne by exact Hne.
        apply Hmirror.
Qed.

End Mirror.

(** ** The bounds the scan computes *)

Section ScanBounds.
Context {R O : Type} `{!RendererOps R} `{!ElementTypes O} `{!KeyGenerator}.

Lemma key_le_antisym (a b : string) : a ≼ b -> b ≼ a -> a = b.
Proof.
  intros [-> | Hlt]%key_le_cases Hba; [reflexivity |].
  now apply key_le_not_lt in Hba.
Qed.

(** One step of the scan on bounds that are the least and the greatest of
    the keys met so far. *)
Lemma expand_bounds_tight (keys : list string) (k : string) (i : Indexes) :
  tight_bounds keys i -> tight_bounds (keys ++ [k]) (expand_bounds k i).
Proof.
  intros (Hmin & Hmax & Hall).
  assert (Hle : min i ≼ max i) by apply (Hall _ Hmin).
  unfold expand_bounds.
  destruct (String.ltb (max i) k) eqn:Habove; simpl.
  - split; [| split].
    + apply elem_of_app. now left.
    + apply elem_of_app. right. apply list_elem_of_singleton. reflexivity.
    + intros k' [Hin | ->%list_elem_of_singleton]%elem_of_app.
      * split; [apply (Hall _ Hin) |].
        apply key_lt_le. eapply key_le_lt_trans; [apply (Hall _ Hin) |].
        exact Habove.
      * split; [| apply key_le_refl].
        apply key_lt_le. eapply key_le_lt_trans; [exact Hle | exact Habove].
  - destruct (String.ltb k (min i)) eqn:Hbelow; simpl.
    + split; [| split].
      * apply elem_of_app. right. apply list_elem_of_singleton. reflexivity.
      * apply elem_of_app. now left.
      * intros k' [Hin | ->%list_elem_of_singleton]%elem_of_app.
        -- split; [| apply (Hall _ Hin)].
           apply key_lt_le. eapply key_lt_le_trans; [exact Hbelow |].
           apply (Hall _ Hin).
        -- split; [apply key_le_refl | now apply key_not_lt_le].
    + split; [| split].
      * apply elem_of_app. now left.
      * apply elem_of_app. now left.
      * intros k' [Hin | ->%list_elem_of_singleton]%elem_of_app.
        -- apply (Hall _ Hin).
        -- split; now apply key_not_lt_le.
Qed.

Lemma scan_manager_tight (l : YContainer) :
  forall (sm : SurfaceManager R) (keys : list string),
    Forall (fun entry => known_type entry.2) l ->
    tight_bounds keys (indexes sm) ->
    tight_bounds (keys ++ keys_of l) (indexes (scan_manager l sm)).
Proof.
  induction l as [| [k y] l IH]; intros sm keys Hknown Htight.
  - unfold keys_of. simpl. now rewrite app_nil_r.
  - apply Forall_cons in Hknown as [[cls Hcls] Hknown]. simpl in Hcls.
    change (keys_of ((k, y) :: l))
      with (as_string (y !! "index") :: keys_of l).
    rewrite (cons_middle _ keys), app_assoc, scan_manager_cons.
    unfold wrapper_of. rewrite Hcls.
    apply IH; [exact Hknown |]. simpl. now apply expand_bounds_tight.
Qed.

Lemma tight_bounds_unique (keys keys' : list string) (i i' : Indexes) :
  (forall k, k ∈ keys <-> k ∈ keys') ->
  tight_bounds keys i -> tight_bounds keys' i' -> i = i'.
Proof.
  intros Hsame (Hmin & Hmax & Hall) (Hmin' & Hmax' & Hall').
  destruct i as [lo hi], i' as [lo' hi']. simpl in *. f_equal.
  - apply key_le_antisym.
    + apply Hall. now apply Hsame.
    + apply Hall'. now apply Hsame.
  - apply key_le_antisym.
    + apply Hall'. now apply Hsame.
    + apply Hall. now apply Hsame.
Qed.

(** X7. When [new SurfaceManager(yContainer)] completes, [indexes.min] and
    [indexes.max] are the least and the greatest, under string ordering,
    of ['a0'] and the order keys of the records of the container; so the
    bounds do not depend on the order in which the container enumerates
    its records. *)
Theorem construction_bounds_tight (yContainer : YContainer) :
  Forall (fun entry => known_type entry.2) yContainer ->
  tight_bounds ("a0" :: keys_of yContainer)
    (indexes (manager (SurfaceManager_new (R := R) yContainer).1)) /\
  forall yContainer' : YContainer,
    yContainer' ≡ₚ yContainer ->
    indexes (manager (SurfaceManager_new (R := R) yContainer').1) =
    indexes (manager (SurfaceManager_new (R := R) yContainer).1).
Proof.
  assert (Htight : forall c : YContainer,
    Forall (fun entry => known_type entry.2) c ->
    tight_bounds ("a0" :: keys_of c)
      (indexes (manager (SurfaceManager_new (R := R) c).1))).
  { intros c Hknown. rewrite (SurfaceManager_new_run _ Hknown). simpl.
    apply (scan_manager_tight c (initial_manager c) ["a0"] Hknown).
    split; [| split]; simpl.
    - apply list_elem_of_singleton. reflexivity.
    - apply list_elem_of_singleton. reflexivity.
    - intros k ->%list_elem_of_singleton. split; apply key_le_refl. }
  intros Hknown. split; [exact (Htight _ Hknown) |].
  intros c' Hperm.
  assert (Hknown' : Forall (fun entry => known_type entry.2) c')
    by now rewrite Hperm.
  apply (tight_bounds_unique ("a0" :: keys_of c') ("a0" :: keys_of yContainer));
    [| exact (Htight _ Hknown') | exact (Htight _ Hknown)].
  intros k. unfold keys_of. now rewrite Hperm.
Qed.

End ScanBounds.

(** ** Change batches *)

Section Batches.
Context {R O : Type} `{!RendererOps R} `{!ElementTypes O} `{!KeyGenerator}.

Lemma evict_upper (element : SurfaceElement) (id : string)
  (sm : SurfaceManager R) :
  upper_bounded sm -> upper_bounded (evict element id sm).
Proof.
  intros Hsm id' e. unfold pickById, evict. simpl.
  rewrite regenerate_min_max. intros [_ He]%lookup_delete_Some.
  exact (Hsm id' e He).
Qed.

(** X8. Processing a change batch never writes to the container and never
    lowers [indexes.max]; and when every live element's key was at most
    [indexes.max] before the batch, this holds after it, whatever the batch
    adds or deletes and whether or not it throws part-way. *)
Theorem batch_keeps_upper_bound (event : YMapEvent) (w : World R) :
  _yContainer (manager (_onYContainer event w).1) = _yContainer (manager w) /\
  max (indexes (manager w)) ≼ max (indexes (manager (_onYContainer event w).1)) /\
  (upper_bounded (manager w) ->
   upper_bounded (manager (_onYContainer event w).1)).
Proof.
  apply (handler_preserves
           (fun sm =>
              _yContainer sm = _yContainer (manager w) /\
              max (indexes (manager w)) ≼ max (indexes sm) /\
              (upper_bounded (manager w) -> upper_bounded sm))).
  - intros id sm sm' (Hstore & Hmax & Hupper) Heffect.
    destruct Heffect as [| yElement cls Hget Hcls | element Hget].
    + auto.
    + split; [exact Hstore |]. split.
      * exact (key_le_trans _ _ _ Hmax (expand_max_grows _ _)).
      * intros Hw. apply materialize_expand_max_upper. auto.
    + split; [exact Hstore |]. split.
      * simpl. now rewrite regenerate_min_max.
      * intros Hw. apply evict_upper. auto.
  - split; [reflexivity |]. split; [apply key_le_refl | auto].
Qed.

(** X9. [addElement] with a fresh id and a type the registry knows, once
    its notification is processed, puts the new element on top: under a
    generator that returns a key after the one it is given, and when every
    live element's key was at most [indexes.max], the new element's key is
    the new [indexes.max] and lies strictly above the key of every other
    live element. *)
Theorem addElement_observed_on_top (id : string) (seed : float)
  (type : string) (properties : YMap) (w : World R) :
  key_after_contract ->
  upper_bounded (manager w) ->
  yc_has id (_yContainer (manager w)) = false ->
  is_Some (ElementCtors (record_type type properties)) ->
  exists element,
    pickById id (manager (addElement_observed id seed type properties w).1) =
      Some element /\
    el_index element =
      max (indexes (manager (addElement_observed id seed type properties w).1)) /\
    forall id' element',
      id' <> id ->
      pickById id' (manager (addElement_observed id seed type properties w).1) =
        Some element' ->
      el_index element' ≺ el_index element.
Proof.
  intros Hafter Hupper Hfresh [cls Hcls].
  rewrite (addElement_observed_mounts _ _ _ _ _ cls Hfresh Hcls).
  set (yMap := new_record id seed type properties (manager w)).
  assert (Hindex : el_index (mkElement yMap cls) =
                   generateKeyBetween (max (indexes (manager w))) null)
    by apply new_record_index.
  assert (Hid : el_id (mkElement yMap cls) = id) by apply new_record_id.
  pose proof (Hafter (max (indexes (manager w)))) as Habove.
  exists (mkElement yMap cls). unfold pickById. simpl. rewrite Hid.
  split; [apply lookup_insert_eq |]. split.
  - unfold expand_max. simpl. rewrite Hindex.
    unfold Key.lt in Habove. now rewrite Habove.
  - intros id' e' Hne. rewrite lookup_insert_ne by congruence. intros He'.
    rewrite Hindex. eapply key_le_lt_trans; [| exact Habove].
    exact (Hupper id' e' He').
Qed.

(** X10. An add entry of a batch completes exactly when the container has
    a record under the entry's id and the registry has a constructor for
    the record's type. When the container has no record under the id the
    entry throws a [TypeError] (a method call on [undefined]); when the
    type is unknown it throws the assertion error of [assertExists]; in
    both cases nothing was mounted, cached or logged before the throw. *)
Theorem onKey_add_completes_iff (event : YMapEvent) (id : string)
  (w : World R) :
  changes_keys event !! id = Some ActionAdd ->
  ((onKey event id w).2 = Normal tt <->
   exists yElement,
     yc_get id (_yContainer (manager w)) = Some yElement /\
     known_type yElement) /\
  (yc_get id (_yContainer (manager w)) = None ->
   onKey event id w = (w, Throw TypeError)) /\
  (forall yElement,
     yc_get id (_yContainer (manager w)) = Some yElement ->
     ~ known_type yElement ->
     onKey event id w = (w, Throw AssertionError)).
Proof.
  intros Hadd.
  assert (Hunknown : forall yElement,
    yc_get id (_yContainer (manager w)) = Some yElement ->
    ~ known_type yElement ->
    onKey event id w = (w, Throw AssertionError)).
  { intros y Hget Hy. apply (onKey_add_no_ctor _ _ _ y Hadd Hget).
    unfold known_type in Hy.
    destruct (ElementCtors (as_string (y !! "type"))); [| reflexivity].
    exfalso. apply Hy. eauto. }
  split; [| split; [exact (onKey_add_no_record _ _ _ Hadd) | exact Hunknown]].
  destruct (yc_get id (_yContainer (manager w))) as [y |] eqn:Hget.
  - destruct (ElementCtors (as_string (y !! "type"))) as [cls |] eqn:Hcls.
    + rewrite (onKey_add _ _ _ y cls Hadd Hget Hcls). simpl.
      split; [intros _ | reflexivity]. exists y. split; [reflexivity |].
      unfold known_type. rewrite Hcls. eauto.
    + rewrite (Hunknown y eq_refl)
        by (unfold known_type; rewrite Hcls; intros [? [=]]).
      simpl. split; [discriminate |].
      intros (y' & [= <-] & [cls Hcls']). congruence.
  - rewrite (onKey_add_no_record _ _ _ Hadd Hget). simpl.
    split; [discriminate | intros (y & [=] & _)].
Qed.

(** What an entry does to the manager, and how it completes, depends only
    on the manager and on the actions of the batch. *)
Lemma onKey_manager_only (event event' : YMapEvent) (id : string)
  (w w' : World R) :
  changes_keys event = changes_keys event' ->
  manager w = manager w' ->
  manager (onKey event id w).1 = manager (onKey event' id w').1 /\
  (onKey event id w).2 = (onKey event' id w').2.
Proof.
  intros Hkeys Hmanager.
  destruct w as [sm cons log], w' as [sm' cons' log']. simpl in Hmanager.
  subst sm'. unfold onKey. rewrite <- Hkeys.
  destruct (changes_keys event !! id) as [[] |]; munfold; simpl.
  - destruct (yc_get id (_yContainer sm)) as [y |]; simpl; [| auto].
    destruct (ElementCtors (as_string (y !! "type"))); simpl; [| auto].
    destruct (String.ltb _ _); auto.
  - auto.
  - destruct (_elements sm !! id) as [e |]; simpl; [| auto].
    destruct (live_index e (_yContainer sm)) as [| index | |]; auto.
    destruct (String.eqb _ _); auto.
  - auto.
Qed.

Lemma onKey_not_acted_on (event : YMapEvent) (id : string) (w : World R) :
  acted_on event id = false ->
  manager (onKey event id w).1 = manager w /\ (onKey event id w).2 = Normal tt.
Proof.
  unfold acted_on. intros Hskip.
  destruct (changes_keys event !! id) as [[] |] eqn:Haction;
    try discriminate.
  - now rewrite (onKey_update _ _ _ Haction).
  - now rewrite (onKey_unresolved _ _ _ Haction).
Qed.

Lemma forEach_acted_on (event event' : YMapEvent) (keys : list string) :
  changes_keys event = changes_keys event' ->
  forall w w' : World R,
    manager w = manager w' ->
    manager (forEach (onKey event) keys w).1 =
      manager (forEach (onKey event') (List.filter (acted_on event) keys) w').1 /\
    (forEach (onKey event) keys w).2 =
      (forEach (onKey event') (List.filter (acted_on event) keys) w').2.
Proof.
  intros Hkeys. induction keys as [| id keys IH]; intros w w' Hmanager.
  - simpl. auto.
  - cbn [List.filter forEach]. destruct (acted_on event id) eqn:Hacted.
    + cbn [forEach]. munfold.
      destruct (onKey_manager_only event event' id w w' Hkeys Hmanager)
        as [Hm Hc].
      destruct (onKey event id w) as [w1 c1], (onKey event' id w') as [w1' c1'].
      simpl in Hm, Hc. subst c1'. destruct c1 as [[] | e]; [| auto].
      now apply IH.
    + munfold. destruct (onKey_not_acted_on event id w Hacted) as [Hm Hc].
      destruct (onKey event id w) as [w1 c1]. simpl in Hm, Hc. subst c1.
      apply IH. congruence.
Qed.

(** X11. The manager a change batch leaves, and whether and how the batch
    throws, are those of the batch without its update entries and without
    the ids that have no action: these entries are only logged. *)
Theorem batch_acted_on_only (event : YMapEvent) (w : World R) :
  manager (_onYContainer event w).1 =
    manager (_onYContainer (acted_on_only event) w).1 /\
  (_onYContainer event w).2 = (_onYContainer (acted_on_only event) w).2.
Proof.
  unfold _onYContainer. cbn [changes_keys acted_on_only].
  destruct (bool_decide _); [auto |].
  now apply forEach_acted_on.
Qed.

End Batches.

(** ** Reassigning keys: a missing record, a second run *)

Section UpdateIndexesEdges.
Context {R O : Type} `{!RendererOps R} `{!ElementTypes O} `{!KeyGenerator}.

Lemma yc_set_field_None (id id' key : string) (v : Value) (c : YContainer) :
  yc_get id' c = None -> yc_get id' (yc_set_field id key v c) = None.
Proof.
  intros Hnone.
  destruct (yc_get id' (yc_set_field id key v c)) eqn:Hget; [| reflexivity].
  assert (Hsome : is_Some (yc_get id' c))
    by (apply (yc_set_field_is_Some id id' key v); eauto).
  rewrite Hnone in Hsome. now destruct Hsome.
Qed.

Lemma after_writes_cons (d : DocEvent) (writes : list DocEvent) (w : World R) :
  after_writes writes
    (mkWorld (set_yContainer (fun c => replay_write c d) (manager w))
       (console w) (doc_log w ++ [d])) =
  after_writes (d :: writes) w.
Proof. unfold after_writes. simpl. now rewrite <- app_assoc. Qed.

(** The loop over elements that have their records makes the writes
    [loop_writes] and completes. *)
Lemma updateIndexes_loop_writes (keys : list string)
  (elements : list SurfaceElement) :
  forall (i : nat) (w : World R),
    Forall (fun e => is_Some (yc_get (el_id e) (_yContainer (manager w))))
      elements ->
    updateIndexes_loop keys i elements w =
    (after_writes (loop_writes keys i elements (_yContainer (manager w))) w,
     Normal tt).
Proof.
  induction elements as [| e elements IH]; intros i w Hstore.
  - simpl. now rewrite after_writes_nil.
  - apply Forall_cons in Hstore as [[m Hm] Hstore].
    cbn [updateIndexes_loop loop_writes]. munfold. simpl. rewrite Hm. simpl.
    destruct (strict_eq_key (ymap_get "index" m) (keys !! i)) eqn:Heq.
    + exact (IH (S i) w Hstore).
    + unfold yElement_set. munfold. simpl. rewrite IH.
      * now rewrite <- after_writes_cons.
      * eapply Forall_impl; [exact Hstore |]. intros e' He'. simpl.
        now apply yc_set_field_is_Some.
Qed.

(** The loop over elements of which one has no record: it makes the
    writes of the elements before that one, and throws. *)
Lemma updateIndexes_loop_missing (keys : list string)
  (before : list SurfaceElement) (e : SurfaceElement)
  (after : list SurfaceElement) :
  forall (i : nat) (w : World R),
    Forall (fun e' => is_Some (yc_get (el_id e') (_yContainer (manager w))))
      before ->
    yc_get (el_id e) (_yContainer (manager w)) = None ->
    updateIndexes_loop keys i (before ++ e :: after) w =
    (after_writes (loop_writes keys i before (_yContainer (manager w))) w,
     Throw TypeError).
Proof.
  induction before as [| e0 before IH]; intros i w Hstore Hnone.
  - cbn [app updateIndexes_loop loop_writes]. munfold. simpl.
    now rewrite Hnone, after_writes_nil.
  - apply Forall_cons in Hstore as [[m Hm] Hstore].
    cbn [app updateIndexes_loop loop_writes]. munfold. simpl.
    rewrite Hm. simpl.
    destruct (strict_eq_key (ymap_get "index" m) (keys !! i)) eqn:Heq.
    + exact (IH (S i) w Hstore Hnone).
    + unfold yElement_set. munfold. simpl. rewrite IH.
      * now rewrite <- after_writes_cons.
      * eapply Forall_impl; [exact Hstore |]. intros e' He'. simpl.
        now apply yc_set_field_is_Some.
      * simpl. now apply yc_set_field_None.
Qed.

Lemma loop_writes_index (keys : list string) (elements : list SurfaceElement) :
  forall (i : nat) (c : YContainer),
    Forall (fun d => exists id v, d = FieldSet id "index" v)
      (loop_writes keys i elements c).
Proof.
  induction elements as [| e elements IH]; intros i c; simpl.
  - constructor.
  - destruct (yc_get (el_id e) c) as [m |]; [| constructor].
    destruct (strict_eq_key _ _); [apply IH |].
    constructor; [eauto | apply IH].
Qed.

(** X12. [updateIndexes(keys, elements, callback)] over elements of which
    one has no record in the container throws a [TypeError] at that
    element: the writes for the elements before it are made and stay, the
    callback is not called, and the transaction is closed all the same. *)
Theorem updateIndexes_missing_record (keys : list string)
  (before : list SurfaceElement) (e : SurfaceElement)
  (after : list SurfaceElement) (callback : Callback (R := R)) (w : World R) :
  Forall (fun e' => is_Some (yc_get (el_id e') (_yContainer (manager w))))
    before ->
  yc_get (el_id e) (_yContainer (manager w)) = None ->
  exists writes : list DocEvent,
    updateIndexes keys (before ++ e :: after) callback w =
      (mkWorld (set_yContainer (replay writes) (manager w)) (console w)
         (doc_log w ++ [TransactBegin] ++ writes ++ [TransactEnd]),
       Throw TypeError) /\
    updateIndexes_loop keys 0 before w = (after_writes writes w, Normal tt) /\
    Forall (fun d => exists id v, d = FieldSet id "index" v) writes.
Proof.
  intros Hstore Hnone.
  exists (loop_writes keys 0 before (_yContainer (manager w))).
  split; [| split].
  - unfold updateIndexes, _transact, try_finally. munfold. simpl.
    rewrite updateIndexes_loop_missing by assumption.
    unfold after_writes. simpl. now rewrite <- !app_assoc.
  - now apply updateIndexes_loop_writes.
  - apply loop_writes_index.
Qed.

(** The loop over records that already have the keys it would write makes
    no write. *)
Lemma loop_writes_settled (keys : list string)
  (elements : list SurfaceElement) (c : YContainer) :
  forall i : nat,
    (forall j e,
       elements !! j = Some e ->
       strict_eq_key (current_index (el_id e) c) (keys !! (i + j)%nat) = true) ->
    loop_writes keys i elements c = [].
Proof.
  induction elements as [| e elements IH]; intros i Hsettled; simpl.
  - reflexivity.
  - destruct (yc_get (el_id e) c) as [m |] eqn:Hm; [| reflexivity].
    pose proof (Hsettled 0%nat e eq_refl) as Hhere.
    unfold current_index in Hhere. rewrite Hm, Nat.add_0_r in Hhere.
    rewrite Hhere. apply IH. intros j e' He'.
    rewrite Nat.add_succ_l, <- Nat.add_succ_r. exact (Hsettled (S j) e' He').
Qed.

Lemma updateIndexes_run_writes (keys : list string)
  (elements : list SurfaceElement) (callback : Callback (R := R))
  (w : World R) :
  Forall (fun e => is_Some (yc_get (el_id e) (_yContainer (manager w))))
    elements ->
  let writes := loop_writes keys 0 elements (_yContainer (manager w)) in
  let written := set_yContainer (replay writes) (manager w) in
  updateIndexes keys elements callback w =
  (mkWorld (callback keys written).1 (console w)
     (doc_log w ++ [TransactBegin] ++ writes ++ [CallbackCall keys; TransactEnd]),
   (callback keys written).2).
Proof.
  intros Hstore writes written.
  unfold updateIndexes, _transact, try_finally, call. munfold. simpl.
  rewrite updateIndexes_loop_writes by exact Hstore.
  unfold after_writes. simpl. fold writes. fold written.
  destruct (callback keys written) as [sm2 r]. simpl.
  rewrite <- !app_assoc. simpl. now destruct r.
Qed.

(** X13. [updateIndexes] is idempotent on the container: for elements
    with distinct ids that have their records, and a callback that leaves
    the container alone, running it a second time with the same keys and
    elements makes no write; the second transaction holds the call of the
    callback and nothing else. *)
Theorem updateIndexes_twice (keys : list string)
  (elements : list SurfaceElement) (callback callback' : Callback (R := R))
  (w : World R) :
  NoDup (el_id <$> elements) ->
  Forall (fun e => is_Some (yc_get (el_id e) (_yContainer (manager w))))
    elements ->
  (forall sm, _yContainer (callback keys sm).1 = _yContainer sm) ->
  let w1 := (updateIndexes keys elements callback w).1 in
  updateIndexes keys elements callback' w1 =
  (mkWorld (callback' keys (manager w1)).1 (console w1)
     (doc_log w1 ++ [TransactBegin; CallbackCall keys; TransactEnd]),
   (callback' keys (manager w1)).2).
Proof.
  intros Hnodup Hstore Hcallback w1.
  destruct (updateIndexes_loop_run keys elements 0 w Hstore)
    as (positions & writes & Hrun & _ & _ & _ & Hfinal).
  assert (Hwrites : writes = loop_writes keys 0 elements (_yContainer (manager w))).
  { rewrite updateIndexes_loop_writes in Hrun by exact Hstore.
    apply (f_equal (fun r => doc_log r.1)) in Hrun. simpl in Hrun.
    symmetry. exact (app_inv_head _ _ _ Hrun). }
  assert (Hstore1 : _yContainer (manager w1) =
                    replay writes (_yContainer (manager w))).
  { unfold w1. rewrite (updateIndexes_run_writes _ _ _ _ Hstore). simpl.
    rewrite Hcallback. simpl. now rewrite Hwrites. }
  assert (Hhas1 :
    Forall (fun e => is_Some (yc_get (el_id e) (_yContainer (manager w1))))
      elements).
  { eapply Forall_impl; [exact Hstore |]. intros e He. simpl.
    rewrite Hstore1. now apply replay_is_Some. }
  rewrite (updateIndexes_run_writes _ _ _ _ Hhas1). cbn zeta.
  rewrite loop_writes_settled.
  - simpl. destruct w1 as [[r c els b i] cons log]. reflexivity.
  - intros j e He. rewrite Hstore1. apply (Hfinal j e He).
    intros j' e' Hlt He' Heq.
    assert (Hj : (el_id <$> elements) !! j = Some (el_id e))
      by now rewrite list_lookup_fmap, He.
    assert (Hj' : (el_id <$> elements) !! j' = Some (el_id e))
      by now rewrite list_lookup_fmap, He', <- Heq.
    pose proof (NoDup_lookup _ _ _ _ Hnodup Hj Hj'). lia.
Qed.

End UpdateIndexesEdges.

(** ** Calls of the mutation API that mount or evict nothing *)

Section ApiEdges.
Context {R O : Type} `{!RendererOps R} `{!ElementTypes O} `{!KeyGenerator}.

Lemma yc_delete_absent (id : string) (c : YContainer) :
  yc_get id c = None -> yc_delete id c = c.
Proof.
  induction c as [| [k m] c IH]; simpl; [reflexivity |].
  destruct (String.eqb k id); [discriminate |].
  intros Hnone. now rewrite IH.
Qed.

(** X14. [removeElement(id)] where there is nothing to evict. For an id
    the container does not have, the call is an empty transaction: no
    notification follows and the manager is unchanged. For an id the
    container has but the cache does not, the record is deleted and the
    handler throws the assertion error of [assertExists] on the missing
    wrapper, leaving the renderer, the cache, the bindings and the bounds
    as they were. *)
Theorem removeElement_observed_nothing_to_evict (id : string) (w : World R) :
  pickById id (manager w) = None ->
  (hasElement id (manager w) = false ->
   removeElement_observed id w =
   (mkWorld (manager w) (console w)
      (doc_log w ++ [TransactBegin; TransactEnd]),
    Normal tt)) /\
  (hasElement id (manager w) = true ->
   removeElement_observed id w =
   (mkWorld (set_yContainer (yc_delete id) (manager w)) (console w)
      (doc_log w ++ [TransactBegin; TransactEnd]),
    Throw AssertionError) /\
   hasElement id (manager (removeElement_observed id w).1) = false).
Proof.
  unfold pickById, hasElement. intros Hcache.
  unfold removeElement_observed. munfold. rewrite removeElement_run.
  unfold event_of_delete. simpl. split; intros Hhas; rewrite Hhas.
  - rewrite <- app_assoc. simpl. unfold set_yContainer.
    rewrite yc_delete_absent.
    + now destruct w as [[r c els b i] cons log].
    + unfold yc_has in Hhas.
      now destruct (yc_get id (_yContainer (manager w))).
  - rewrite (onYContainer_single _ id);
      [| reflexivity | rewrite delete_event_action; eauto].
    rewrite (onKey_delete_no_wrapper _ _ _ (delete_event_action id))
      by exact Hcache.
    rewrite <- app_assoc. simpl. split; [reflexivity |].
    unfold yc_has. now rewrite yc_get_delete_eq.
Qed.

(** X15. [addElement] with a fresh id, for a record whose type the
    registry has no constructor for (the caller's [type] property takes
    precedence over the default one): the record is stored, and the
    handler throws the assertion error of [assertExists] before it mounts
    anything. Afterwards [hasElement(id)] is true while the renderer, the
    cache, the bindings and the bounds are as they were; [indexes.max] did
    not move, so the record of the next [addElement] gets the order key
    this record has. *)
Theorem addElement_observed_unknown_type (id : string) (seed : float)
  (type : string) (properties : YMap) (w : World R) :
  yc_has id (_yContainer (manager w)) = false ->
  ElementCtors (record_type type properties) = None ->
  let w' := (addElement_observed id seed type properties w).1 in
  (addElement_observed id seed type properties w).2 = Throw AssertionError /\
  hasElement id (manager w') = true /\
  manager w' =
    set_yContainer
      (yc_set id (new_record id seed type properties (manager w))) (manager w) /\
  forall id' seed' type' properties',
    id' <> id ->
    let c := _yContainer (manager (addElement id' seed' type' properties' w').1) in
    current_index id' c = current_index id c.
Proof.
  intros Hfresh Hcls w'. unfold w'.
  rewrite (addElement_observed_unknown _ _ _ _ _ Hfresh Hcls). cbn [fst snd].
  split; [reflexivity |]. split; [| split; [reflexivity |]].
  - unfold hasElement, yc_has. simpl. now rewrite yc_get_set_eq.
  - intros id' seed' type' properties' Hne. rewrite addElement_run. simpl.
    unfold current_index.
    rewrite yc_get_set_eq, yc_get_set_ne, yc_get_set_eq by exact Hne.
    unfold ymap_get, new_record.
    now rewrite !(lookup_insert_ne _ "seed"), !lookup_insert_eq by discriminate.
Qed.

End ApiEdges.

(** ** The checkbox cell *)

Section Checkbox.
Import CheckboxCell.

(** X16. A click on a checkbox cell asks the row host to store the
    opposite of what the cell shows: [setValue(false)] when the checked
    icon is rendered, [setValue(true)] when the unchecked icon is rendered,
    which is also the case of a missing cell and of a cell without a value.
    A cell that holds the value a click stores renders the other icon; and
    the class attribute gets ['checked'] exactly when the checked icon is
    rendered. *)
Theorem checkbox_click_toggles (cell : option Cell) :
  _onChange cell =
    SetValue match icon (render cell) with
             | checkboxChecked => false
             | checkboxUnchecked => true
             end /\
  (forall checked,
     _onChange cell = SetValue checked ->
     icon (render (Some (mkCell (Some checked)))) <> icon (render cell)) /\
  (class_part (render cell) = ClassName "checked" <->
   icon (render cell) = checkboxChecked).
Proof.
  destruct cell as [[[[] |]] |]; cbn;
    (split; [reflexivity |]);
    (split; [intros checked [= <-]; discriminate |]);
    split; congruence.
Qed.

End Checkbox.

(** ** Adding an element and removing it again *)

Section RoundTrip.
Context {R O : Type} `{!RendererOps R} `{!ElementTypes O} `{!KeyGenerator}.

Lemma yc_delete_set_fresh (id : string) (m : YMap) (c : YContainer) :
  yc_get id c = None -> yc_delete id (yc_set id m c) = c.
Proof.
  induction c as [| [k m'] c IH]; simpl.
  - now rewrite String.eqb_refl.
  - destruct (String.eqb k id) eqn:Hk; [discriminate |].
    intros Hnone. simpl. now rewrite Hk, IH.
Qed.

(** X17. [addElement] with a fresh id and a known type followed by
    [removeElement] of the id it returned, each with its notification
    processed: both calls complete, and the container and the cache are
    back as they were; but [indexes.max] stays at the key the removed
    element had, strictly above the bound before the two calls (under a
    generator that returns a key after the one it is given), so the key is
    not handed out again. *)
Theorem addElement_then_removeElement (id : string) (seed : float)
  (type : string) (properties : YMap) (w : World R) :
  key_after_contract ->
  yc_has id (_yContainer (manager w)) = false ->
  pickById id (manager w) = None ->
  is_Some (ElementCtors (record_type type properties)) ->
  let w1 := (addElement_observed id seed type properties w).1 in
  let w2 := (removeElement_observed id w1).1 in
  (addElement_observed id seed type properties w).2 = Normal id /\
  (removeElement_observed id w1).2 = Normal tt /\
  _yContainer (manager w2) = _yContainer (manager w) /\
  _elements (manager w2) = _elements (manager w) /\
  max (indexes (manager w2)) = assigned_key id (manager w1) /\
  max (indexes (manager w)) ≺ max (indexes (manager w2)).
Proof.
  intros Hafter Hfresh Hcache [cls Hcls] w1 w2.
  pose proof (addElement_observed_mounts id seed type properties w cls
                Hfresh Hcls) as Hadd.
  set (yMap := new_record id seed type properties (manager w)) in Hadd.
  assert (Hid : el_id (mkElement yMap cls) = id) by apply new_record_id.
  assert (Hindex : el_index (mkElement yMap cls) =
                   generateKeyBetween (max (indexes (manager w))) null)
    by apply new_record_index.
  pose proof (Hafter (max (indexes (manager w)))) as Habove.
  assert (Hw1 : manager w1 =
                materialize expand_max (mkElement yMap cls)
                  (set_yContainer (yc_set id yMap) (manager w)))
    by (unfold w1; now rewrite Hadd).
  assert (Hmax1 : max (indexes (manager w1)) =
                  generateKeyBetween (max (indexes (manager w))) null).
  { rewrite Hw1. simpl. unfold expand_max. rewrite Hindex.
    unfold Key.lt in Habove. now rewrite Habove. }
  assert (Hhas1 : yc_has id (_yContainer (manager w1)) = true).
  { rewrite Hw1. unfold yc_has. simpl. now rewrite yc_get_set_eq. }
  assert (Hget1 : _elements (manager w1) !! id = Some (mkElement yMap cls)).
  { rewrite Hw1. simpl. rewrite Hid. apply lookup_insert_eq. }
  assert (Hnone : yc_get id (_yContainer (manager w)) = None).
  { unfold yc_has in Hfresh.
    now destruct (yc_get id (_yContainer (manager w))). }
  split; [now rewrite Hadd |].
  destruct (removeElement_observed_cases id w1)
    as [(Hhas & _) | [(_ & Hmissing & _) | (e & _ & He & Hnormal & Hw2)]];
    [congruence | congruence |].
  rewrite Hget1 in He. injection He as <-.
  split; [exact Hnormal |]. fold w2 in Hw2. rewrite Hw2, Hw1. simpl.
  rewrite Hid. split; [| split; [| split]].
  - now apply yc_delete_set_fresh.
  - now apply delete_insert_id.
  - rewrite regenerate_min_max. unfold assigned_key. simpl.
    rewrite yc_get_set_eq. fold (el_index (mkElement yMap cls)).
    unfold expand_max. rewrite Hindex.
    unfold Key.lt in Habove. now rewrite Habove.
  - rewrite regenerate_min_max. unfold expand_max. rewrite Hindex.
    unfold Key.lt in Habove. rewrite Habove. exact Habove.
Qed.

End RoundTrip.

(** * Scenarios *)

Section Scenarios.
Import Ref.

(** ** Removing the element that holds [indexes.min] *)




(** The delete entry of [A] processed while the record of [A] is in the
    container still: [indexes.min] moves from [a0] up to [a1]. *)
Lemma onKey_delete_regenerates_min_witness :
  let element := mkElement (shape_record "A" "a0" "[0,0,10,10]") PlainElement in
  live_index element (_yContainer (manager two_boxes_world)) =
    VString (min (indexes (manager two_boxes_world))) /\
  exists w',
    onKey delete_A "A" two_boxes_world = (w', Normal tt) /\
    pickById "A" (manager w') = None /\
    max (indexes (manager w')) = max (indexes (manager two_boxes_world)) /\
    min (indexes (manager w')) = "a1" /\
    min (indexes (manager two_boxes_world)) ≺ min (indexes (manager w')).
Proof.
  cbn zeta.
  assert (Hlive :
    live_index (mkElement (shape_record "A" "a0" "[0,0,10,10]") PlainElement)
      (_yContainer (manager two_boxes_world)) =
    VString (min (indexes (manager two_boxes_world))))
    by (vm_compute; reflexivity).
  split; [exact Hlive |].
  destruct (onKey_delete_regenerates_min delete_A "A"
              (mkElement (shape_record "A" "a0" "[0,0,10,10]") PlainElement)
              two_boxes_world)
    as (w' & Hrun & Hgone & Hmax & Hmin & _).
  - vm_compute. reflexivity.
  - vm_compute. reflexivity.
  - destruct (Hmin Hlive) as [Hnew Habove].
    exists w'. split; [exact Hrun |]. split; [exact Hgone |].
    split; [exact Hmax |]. split.
    + rewrite Hnew. vm_compute. reflexivity.
    + exact (Habove ref_key_after_contract).
Defined.

(** ** A connector and its endpoints *)

(** The counterexample to C2. The connector [c] is removed and its delete
    notification processed; then one more change batch (another peer adds a
    shape) is processed. The wrapper of [c] is gone, and the binding graph
    still has the entries [e1 → c], [e2 → c] and [c → e1, e2]. *)
Lemma bindings_outlive_connector :
  let w1 := (removeElement_observed "c" connected_world).1 in
  let w2 := (peer_set_observed "e3" (record "e3" "shape" "a4") w1).1 in
  pickById "c" (manager w2) = None /\
  _bindings (manager w2) !! "e1" = Some ["c"] /\
  _bindings (manager w2) !! "e2" = Some ["c"] /\
  _bindings (manager w2) !! "c" = Some ["e1"; "e2"] /\
  mentions "c" (_bindings (manager w2)).
Proof.
  cbn zeta.
  assert (Hc : _bindings
                 (manager
                    (peer_set_observed "e3" (record "e3" "shape" "a4")
                       (removeElement_observed "c" connected_world).1).1)
               !! "c" = Some ["e1"; "e2"]) by (vm_compute; reflexivity).
  split; [vm_compute; reflexivity |].
  split; [vm_compute; reflexivity |].
  split; [vm_compute; reflexivity |].
  split; [exact Hc |].
  left. rewrite Hc. now exists ["e1"; "e2"].
Qed.

Lemma delete_keeps_bindings_witness :
  exists w',
    onKey delete_c "c" connected_world = (w', Normal tt) /\
    _renderer (manager w') =
      unmount (mkElement (connector_record "c" "a3" "e1" "e2") ConnectorElement)
        (_renderer (manager connected_world)) /\
    pickById "c" (manager w') = None /\
    _bindings (manager w') = _bindings (manager connected_world) /\
    (forall a t later w'',
       bound_to (_bindings (manager connected_world)) a t ->
       manager w'' = manager w' ->
       bound_to (_bindings (manager (_onYContainer later w'').1)) a t) /\
    (forall a t later w'',
       bound_to (_bindings (manager w'')) a t ->
       bound_to (_bindings (manager (_onYContainer later w'').1)) a t) /\
    (forall id' e,
       e ∈ getBindingElements id' (manager w') ->
       exists k, k <> "c" /\ pickById k (manager w') = Some e).
Proof.
  apply delete_keeps_bindings.
  - vm_compute. reflexivity.
  - vm_compute. reflexivity.
Defined.

Lemma getBindingElements_symmetric_witness :
  let sm := manager connected_world in
  (forall (c : string) (connector : SurfaceElement) (t : string),
     pickById c sm = Some connector ->
     elementClass connector = ConnectorElement ->
     startElement connector = Some t \/ endElement connector = Some t ->
     (forall wrapper,
        pickById t sm = Some wrapper -> wrapper ∈ getBindingElements c sm) /\
     connector ∈ getBindingElements t sm) /\
  (forall (id : string) (e : SurfaceElement),
     e ∈ getBindingElements id sm -> exists k, pickById k sm = Some e) /\
  (forall id : string,
     (forall k, bound_to (_bindings sm) id k -> pickById k sm = None) ->
     getBindingElements id sm = []).
Proof.
  apply getBindingElements_symmetric.
  apply (reach_new connected). vm_compute. reflexivity.
Defined.

(** ** Bounds *)

(** The counterexample to C4. A manager is constructed over an empty
    container; another peer then adds a record whose key [Zz] is below
    [indexes.min = a0]. Once the add notification is processed the element
    is live and its key is below [indexes.min]. *)
Lemma add_below_min_breaks_bounds :
  let w0 : World Renderer := (SurfaceManager_new []).1 in
  let w1 := (peer_set_observed "R" (record "R" "shape" "Zz") w0).1 in
  bounds_invariant (manager w0) /\
  el_index <$> pickById "R" (manager w1) = Some "Zz" /\
  min (indexes (manager w1)) = "a0" /\
  "Zz" ≺ "a0" /\
  ~ bounds_invariant (manager w1).
Proof.
  cbn zeta. split; [| split; [| split; [| split]]].
  - intros id e. unfold pickById. simpl. now rewrite lookup_empty.
  - vm_compute. reflexivity.
  - vm_compute. reflexivity.
  - vm_compute. reflexivity.
  - intros Hinv.
    destruct (Hinv "R" (mkElement (record "R" "shape" "Zz") PlainElement))
      as [Hlo _].
    + vm_compute. reflexivity.
    + vm_compute in Hlo. discriminate.
Qed.

Lemma bounds_after_scan_and_add_witness :
  bounds_invariant (manager connected_world) /\
  bounds_invariant (manager (onKey add_e9 "e9" e9_written).1).
Proof.
  destruct (bounds_after_scan_and_add (R := Renderer)) as [Hscan Hadd].
  assert (Hinv : bounds_invariant (manager connected_world)) by apply Hscan.
  split; [exact Hinv |].
  destruct (Hadd add_e9 "e9" e9_written) as (_ & _ & _ & Hkept).
  - vm_compute. reflexivity.
  - apply Hkept; [exact Hinv |].
    intros yElement Hget. vm_compute in Hget. injection Hget as <-.
    vm_compute. reflexivity.
Defined.

(** ** Picking *)

(** The scenario of the specification: [pickByPoint(7, 7)] returns [A]
    and [B], [pickTop(7, 7)] returns [B], [pickTop(1, 1)] returns [A], and
    nothing is picked at [(20, 20)]. *)
Example pick_after_two_adds :
  pickByPoint 7 7 None (manager two_adds_world) = [wrapper_A; wrapper_B] /\
  pickTop 7 7 (manager two_adds_world) = Some wrapper_B /\
  pickTop 1 1 (manager two_adds_world) = Some wrapper_A /\
  pickTop 20 20 (manager two_adds_world) = None.
Proof. repeat split; vm_compute; reflexivity. Qed.

(** Over [unordered] the wrapper of [B] is mounted before the wrapper of
    [A]; both are live, both overlap the probe bound of [(7, 7)] and both
    pass the hit test there; [pickTop(7, 7)] returns [B], whose key is the
    highest. *)
Lemma pickTop_highest_key_witness :
  let sm : SurfaceManager Renderer := manager (SurfaceManager_new unordered).1 in
  let top := mkElement (shape_record "B" "a2" "[5,5,10,10]") PlainElement in
  search_contract 7 7 sm /\
  pickTop 7 7 sm = Some top /\
  pickById (el_id top) sm = Some top /\
  hitTest top 7 7 None = true /\
  forall id e,
    pickById id sm = Some e -> hitTest e 7 7 None = true ->
    el_index e ≼ el_index top.
Proof.
  cbn zeta.
  set (sm := manager (SurfaceManager_new (R := Renderer) unordered).1).
  set (element_A := mkElement (shape_record "A" "a1" "[0,0,10,10]") PlainElement).
  set (element_B := mkElement (shape_record "B" "a2" "[5,5,10,10]") PlainElement).
  assert (Hcandidates : candidates_at 7 7 sm = [element_A; element_B])
    by (vm_compute; reflexivity).
  assert (Hcache : _elements sm =
                   <["A" := element_A]> (<["B" := element_B]> ∅))
    by (vm_compute; reflexivity).
  assert (Hcontract : search_contract 7 7 sm).
  { split; [apply ref_search_ascending |]. rewrite Hcandidates. split.
    - intros e He.
      repeat (apply elem_of_cons in He as [-> | He];
              [vm_compute; reflexivity |]).
      now apply elem_of_nil in He.
    - intros id e He _. unfold pickById in He. rewrite Hcache in He.
      apply lookup_insert_Some in He as [[_ <-] | [_ He]].
      + apply elem_of_cons. now left.
      + apply lookup_insert_Some in He as [[_ <-] | [_ He]].
        * apply elem_of_cons. right. apply elem_of_cons. now left.
        * now rewrite lookup_empty in He. }
  assert (Hpick : pickTop 7 7 sm = Some element_B)
    by (vm_compute; reflexivity).
  split; [exact Hcontract |]. split; [exact Hpick |].
  destruct (pickTop_highest_key 7 7 sm Hcontract) as [_ Htop].
  exact (Htop element_B Hpick).
Defined.

(** ** Change batches *)

Lemma onKey_skipped_entry_witness :
  exists message,
    let w' := mkWorld (manager connected_world)
                (console connected_world ++ [ConsoleError message update_e1])
                (doc_log connected_world) in
    onKey update_e1 "e1" connected_world = (w', Normal tt) /\
    forall rest,
      forEach (onKey update_e1) ("e1" :: rest) connected_world =
      forEach (onKey update_e1) rest w'.
Proof.
  apply onKey_skipped_entry. right. vm_compute. reflexivity.
Defined.

Lemma onKey_delete_unmatched_witness :
  onKey delete_ghost "ghost" connected_world =
    (connected_world, Throw AssertionError) /\
  (forall rest,
     forEach (onKey delete_ghost) ("ghost" :: rest) connected_world =
     (connected_world, Throw AssertionError)) /\
  (forall before rest w0,
     keysChanged delete_ghost = (before ++ "ghost" :: rest)%list ->
     forEach (onKey delete_ghost) before w0 = (connected_world, Normal tt) ->
     _onYContainer delete_ghost w0 = (connected_world, Throw AssertionError)).
Proof.
  apply onKey_delete_unmatched.
  - vm_compute. reflexivity.
  - vm_compute. reflexivity.
Defined.

(** ** Adding elements *)

Lemma addElement_keys_increase_witness :
  exists w' log,
    addElements three_calls connected_world = (w', Normal log) /\
    length log = length three_calls /\
    (forall i key max_after,
       log !! i = Some (key, max_after) -> max_after = key) /\
    (forall i j ki kj,
       log !! i = Some ki -> log !! j = Some kj -> (i < j)%nat ->
       ki.1 ≺ kj.1) /\
    (forall i k,
       log !! i = Some k -> max (indexes (manager connected_world)) ≺ k.1).
Proof.
  apply addElement_keys_increase.
  - exact ref_key_after_contract.
  - apply (bool_decide_unpack _). vm_compute. exact I.
  - intros c Hc. unfold three_calls in Hc.
    repeat (apply elem_of_cons in Hc as [-> | Hc]; [vm_compute; reflexivity |]).
    now apply elem_of_nil in Hc.
  - intros c Hc. unfold three_calls in Hc.
    repeat (apply elem_of_cons in Hc as [-> | Hc]; [vm_compute; eauto |]).
    now apply elem_of_nil in Hc.
Defined.

(** ** Reassigning keys *)

(** [e1] keeps its key [a1]; [e2] moves from [a2] to [a5]. *)
Lemma updateIndexes_transaction_witness :
  let keys := ["a1"; "a5"] in
  let elements :=
    [mkElement (record "e1" "shape" "a1") PlainElement;
     mkElement (record "e2" "shape" "a2") PlainElement] in
  let w := connected_world in
  exists (positions : list nat) (writes : list DocEvent),
    let c := _yContainer (manager w) in
    let written := set_yContainer (replay writes) (manager w) in
    updateIndexes keys elements no_callback w =
      (mkWorld (no_callback keys written).1 (console w)
         (doc_log w ++
          [TransactBegin] ++ writes ++ [CallbackCall keys; TransactEnd]),
       (no_callback keys written).2) /\
    StronglySorted lt positions /\
    Forall2 (fun j d => index_write keys 0 elements j = Some d)
      positions writes /\
    (forall k j e,
       positions !! k = Some j -> elements !! j = Some e ->
       strict_eq_key (current_index (el_id e) (replay (take k writes) c))
         (keys !! j) = false) /\
    (forall j e,
       elements !! j = Some e ->
       (forall j' e',
          (j < j')%nat -> elements !! j' = Some e' -> el_id e' <> el_id e) ->
       strict_eq_key (current_index (el_id e) (replay writes c)) (keys !! j)
       = true).
Proof.
  cbn zeta. apply updateIndexes_transaction.
  repeat constructor; vm_compute; eauto.
Defined.

(** The run of that call: one write, for [e2]. *)
Example updateIndexes_run :
  doc_log
    (updateIndexes ["a1"; "a5"]
       [mkElement (record "e1" "shape" "a1") PlainElement;
        mkElement (record "e2" "shape" "a2") PlainElement]
       no_callback connected_world).1 =
  [TransactBegin; FieldSet "e2" "index" (VString "a5");
   CallbackCall ["a1"; "a5"]; TransactEnd].
Proof. vm_compute. reflexivity. Qed.

(** ** The shape of the binding graph *)

Lemma bindings_always_symmetric_witness :
  bound_to (_bindings (manager connected_world)) "c" "e2" /\
  (bound_to (_bindings (manager connected_world)) "c" "e2" <->
   bound_to (_bindings (manager connected_world)) "e2" "c").
Proof.
  split.
  - exists ["e1"; "e2"]. split; [vm_compute; reflexivity |].
    apply elem_of_cons. right. apply elem_of_cons. now left.
  - apply bindings_always_symmetric.
    apply (reach_new connected). vm_compute. reflexivity.
Defined.

Lemma getBindingElements_NoDup_witness :
  length (getBindingElements "c" (manager connected_world)) = 2%nat /\
  NoDup (getBindingElements "c" (manager connected_world)).
Proof.
  split; [vm_compute; reflexivity |].
  apply getBindingElements_NoDup.
  apply (reach_new connected). vm_compute. reflexivity.
Defined.

(** ** The cache and the container *)

Lemma connected_well_formed : well_formed connected.
Proof.
  split.
  - apply (bool_decide_unpack _). vm_compute. exact I.
  - intros k y Hin. unfold connected in Hin.
    repeat (apply elem_of_cons in Hin as [[= -> ->] | Hin]);
      try (split; [reflexivity | eexists; reflexivity]).
    now apply elem_of_nil in Hin.
Qed.

Lemma connected_world_mirrors : mirrors (manager connected_world).
Proof.
  intros id. unfold connected_world.
  rewrite SurfaceManager_new_run
    by apply well_formed_known, connected_well_formed.
  cbn [fst manager]. rewrite scan_manager_container.
  apply scan_mirrors, connected_well_formed.
Qed.

Lemma construction_mirrors_witness :
  well_formed connected /\
  mirrors (manager connected_world) /\
  (hasElement "c" (manager connected_world) = true <->
   is_Some (pickById "c" (manager connected_world))).
Proof.
  split; [exact connected_well_formed |].
  destruct (construction_mirrors (R := Renderer) connected connected_well_formed)
    as (_ & Hmirror & Hhas).
  split; [exact Hmirror | exact (Hhas "c")].
Defined.

Lemma mirrors_preserved_witness :
  mirrors (manager connected_world) /\
  mirrors (manager (addElement_observed "e3" 1 "shape" ∅ connected_world).1) /\
  mirrors (manager (removeElement_observed "e1" connected_world).1).
Proof.
  split; [exact connected_world_mirrors |].
  destruct (mirrors_preserved connected_world connected_world_mirrors)
    as [Hadd Hremove].
  split; [apply Hadd; reflexivity | apply Hremove].
Defined.

(** ** The bounds the scan computes *)

Lemma unordered_known : Forall (fun entry => known_type entry.2) unordered.
Proof. repeat constructor; eexists; reflexivity. Qed.

Lemma construction_bounds_tight_witness :
  Forall (fun entry => known_type entry.2) unordered /\
  tight_bounds ("a0" :: keys_of unordered)
    (indexes (manager (SurfaceManager_new (R := Renderer) unordered).1)) /\
  indexes (manager (SurfaceManager_new (R := Renderer) (reverse unordered)).1) =
  indexes (manager (SurfaceManager_new (R := Renderer) unordered).1).
Proof.
  split; [exact unordered_known |].
  destruct (construction_bounds_tight (R := Renderer) unordered unordered_known)
    as [Htight Horder].
  split; [exact Htight | apply Horder, reverse_Permutation].
Defined.

(** ** Change batches and the upper bound *)

Lemma connected_world_upper : upper_bounded (manager connected_world).
Proof.
  assert (Hscan :
    min (indexes (manager connected_world))
      ≼ max (indexes (manager connected_world)) /\
    bounds_invariant (manager connected_world)).
  { apply (scan_preserves
             (fun sm => min (indexes sm) ≼ max (indexes sm) /\
                        bounds_invariant sm)
             (fun element sm => materialize_expand_bounds_ok element sm)
             connected).
    split; [apply key_le_refl |].
    intros id e. unfold pickById. simpl. now rewrite lookup_empty. }
  intros id e He. apply (proj2 Hscan id e He).
Qed.

Lemma addElement_observed_on_top_witness :
  upper_bounded (manager connected_world) /\
  exists element,
    pickById "e3"
      (manager (addElement_observed "e3" 1 "shape" ∅ connected_world).1) =
      Some element /\
    el_index element =
      max (indexes
             (manager (addElement_observed "e3" 1 "shape" ∅ connected_world).1)) /\
    forall id' element',
      id' <> "e3" ->
      pickById id'
        (manager (addElement_observed "e3" 1 "shape" ∅ connected_world).1) =
        Some element' ->
      el_index element' ≺ el_index element.
Proof.
  split; [exact connected_world_upper |].
  apply addElement_observed_on_top.
  - exact ref_key_after_contract.
  - exact connected_world_upper.
  - reflexivity.
  - vm_compute. eauto.
Defined.

Lemma onKey_add_completes_iff_witness :
  changes_keys add_ghost !! "ghost" = Some ActionAdd /\
  onKey add_ghost "ghost" connected_world = (connected_world, Throw TypeError).
Proof.
  assert (Hadd : changes_keys add_ghost !! "ghost" = Some ActionAdd)
    by (vm_compute; reflexivity).
  split; [exact Hadd |].
  destruct (onKey_add_completes_iff add_ghost "ghost" connected_world Hadd)
    as (_ & Hmissing & _).
  apply Hmissing. reflexivity.
Defined.

(** ** Reassigning keys: a missing record, a second run *)

Lemma updateIndexes_missing_record_witness :
  yc_get (el_id element_ghost) (_yContainer (manager connected_world)) = None /\
  exists writes : list DocEvent,
    updateIndexes ["a5"; "a6"; "a7"]
      ([element_e1] ++ element_ghost :: [element_e2]) no_callback
      connected_world =
      (mkWorld (set_yContainer (replay writes) (manager connected_world))
         (console connected_world)
         (doc_log connected_world ++
          [TransactBegin] ++ writes ++ [TransactEnd]),
       Throw TypeError) /\
    updateIndexes_loop ["a5"; "a6"; "a7"] 0 [element_e1] connected_world =
      (after_writes writes connected_world, Normal tt) /\
    Forall (fun d => exists id v, d = FieldSet id "index" v) writes.
Proof.
  split; [reflexivity |].
  apply updateIndexes_missing_record.
  - repeat constructor. vm_compute. eauto.
  - reflexivity.
Defined.

Lemma updateIndexes_twice_witness :
  let keys := ["a5"; "a1"] in
  let elements := [element_e1; element_e2] in
  let w1 := (updateIndexes keys elements no_callback connected_world).1 in
  NoDup (el_id <$> elements) /\
  updateIndexes keys elements no_callback w1 =
  (mkWorld (no_callback keys (manager w1)).1 (console w1)
     (doc_log w1 ++ [TransactBegin; CallbackCall keys; TransactEnd]),
   (no_callback keys (manager w1)).2).
Proof.
  cbn zeta.
  assert (Hnodup : NoDup (el_id <$> [element_e1; element_e2]))
    by (apply (bool_decide_unpack _); vm_compute; exact I).
  split; [exact Hnodup |].
  apply updateIndexes_twice.
  - exact Hnodup.
  - repeat constructor; vm_compute; eauto.
  - reflexivity.
Defined.

(** ** Calls of the mutation API that mount or evict nothing *)

Lemma removeElement_observed_nothing_to_evict_witness :
  pickById "ghost" (manager connected_world) = None /\
  removeElement_observed "ghost" connected_world =
  (mkWorld (manager connected_world) (console connected_world)
     (doc_log connected_world ++ [TransactBegin; TransactEnd]),
   Normal tt).
Proof.
  assert (Hnone : pickById "ghost" (manager connected_world) = None)
    by (vm_compute; reflexivity).
  split; [exact Hnone |].
  apply (removeElement_observed_nothing_to_evict "ghost" connected_world Hnone).
  reflexivity.
Defined.

Lemma addElement_observed_unknown_type_witness :
  ElementCtors (record_type "shape" {[ "type" := VString "frame" ]}) = None /\
  (addElement_observed "e3" 1 "shape" {[ "type" := VString "frame" ]}
     connected_world).2 = Throw AssertionError /\
  hasElement "e3"
    (manager
       (addElement_observed "e3" 1 "shape" {[ "type" := VString "frame" ]}
          connected_world).1) = true.
Proof.
  assert (Hcls :
    ElementCtors (record_type "shape" {[ "type" := VString "frame" ]}) = None)
    by (vm_compute; reflexivity).
  split; [exact Hcls |].
  destruct (addElement_observed_unknown_type "e3" 1 "shape"
              {[ "type" := VString "frame" ]} connected_world eq_refl Hcls)
    as (Hthrow & Hhas & _).
  split; [exact Hthrow | exact Hhas].
Defined.

(** ** Adding an element and removing it again *)

Lemma addElement_then_removeElement_witness :
  let w1 := (addElement_observed "e3" 1 "shape" ∅ connected_world).1 in
  let w2 := (removeElement_observed "e3" w1).1 in
  pickById "e3" (manager connected_world) = None /\
  (addElement_observed "e3" 1 "shape" ∅ connected_world).2 = Normal "e3" /\
  (removeElement_observed "e3" w1).2 = Normal tt /\
  _yContainer (manager w2) = _yContainer (manager connected_world) /\
  _elements (manager w2) = _elements (manager connected_world) /\
  max (indexes (manager w2)) = assigned_key "e3" (manager w1) /\
  max (indexes (manager connected_world)) ≺ max (indexes (manager w2)).
Proof.
  cbn zeta.
  assert (Hnone : pickById "e3" (manager connected_world) = None)
    by (vm_compute; reflexivity).
  split; [exact Hnone |].
  apply addElement_then_removeElement.
  - exact ref_key_after_contract.
  - reflexivity.
  - exact Hnone.
  - vm_compute. eauto.
Defined.

End Scenarios.
